(** * cpgame: a cooperative event loop for CircuitPython boards

    Shallow embedding of [circuitpython/cpx/cpgame.py] and the properties of
    its scheduler, edge detector, button dispatcher and registration
    decorators.

    Conventions of the embedding.
    - The module-level tables ([RUNNING], [INTERVALS], [TIMERS], [BUTTONS],
      [DIOS], [PRESSES]) and the [Gamepad] instances are the fields of one
      [World]; every function of the module is a function on worlds.
    - Timestamps are exact numbers ([Z], a count of milliseconds), so the
      20 ms polling period [0.02] is [20].  Rounding of floating point sums
      is outside the model.
    - The board is an environment [Env]: the successive readings of
      [time.monotonic()], the pin levels seen by each poll, and the bodies
      of the application's callbacks, which may change the world in any way,
      return a value or raise.
    - [while True] loops and iterations over tables that callbacks can grow
      take a fuel argument; an exhausted run stops with [OutOfFuel] and still
      carries the world and the log reached so far. *)

From Stdlib Require Import List ZArith Lia Bool Arith.
From Stdlib Require String.
Import String.StringSyntax.
Import ListNotations.
Open Scope Z_scope.

(** ** Python values *)

Definition pin := nat.
Definition time := Z.

(** Identity of a callable: an application function, or a [Gamepad]
    instance living at an address of the heap. *)
Inductive callable : Type :=
| Fn (id : nat)
| GamepadObj (addr : nat).

Definition callable_eqb (f g : callable) : bool :=
  match f, g with
  | Fn a, Fn b => Nat.eqb a b
  | GamepadObj a, GamepadObj b => Nat.eqb a b
  | _, _ => false
  end.

(** Values a callback returns: [None], the sentinel [PROPOGATE], or
    anything else. *)
Inductive pyval : Type :=
| VNone
| VPropogate
| VNum (z : Z).

Definition is_PROPOGATE (v : pyval) : bool :=
  match v with VPropogate => true | _ => false end.

Inductive exn : Type :=
| RuntimeError
| ValueError
| KeyError
| ReferenceError
| AppError (code : nat).

Definition DOWN : Z := 1.
Definition UP : Z := 2.

(** ** Dictionaries keyed by callables

    A dictionary is its array of entries in insertion order.  Deleting a key
    leaves an empty slot behind, a new key is appended, an existing key is
    updated in place; so the position of an entry never changes and an
    iterator is an index into the array.  The iterator is the one of
    CPython.  It remembers the number of entries the dictionary had when
    iteration began and raises [RuntimeError] ("dictionary changed size
    during iteration") when a step finds a different number; it also counts
    the entries it still expects and raises [RuntimeError] ("dictionary keys
    changed during iteration") when it finds an entry after the last
    expected one. *)
Module Dict.
Section WithValue.
Context {V : Type}.

Definition t : Type := list (option (callable * V)).

Definition empty : t := [].

Definition is_key (k : callable) (e : option (callable * V)) : bool :=
  match e with
  | Some (k', _) => callable_eqb k' k
  | None => false
  end.

Fixpoint items (d : t) : list (callable * V) :=
  match d with
  | [] => []
  | Some kv :: d' => kv :: items d'
  | None :: d' => items d'
  end.

Definition keys (d : t) : list callable := map fst (items d).
Definition values (d : t) : list V := map snd (items d).
Definition len (d : t) : nat := length (items d).
Definition mem (k : callable) (d : t) : bool := existsb (is_key k) d.

Definition get (k : callable) (d : t) : option V :=
  match find (fun kv => callable_eqb (fst kv) k) (items d) with
  | Some kv => Some (snd kv)
  | None => None
  end.

(** [d[k] = v] *)
Definition set (k : callable) (v : V) (d : t) : t :=
  if mem k d
  then map (fun e => if is_key k e then Some (k, v) else e) d
  else d ++ [Some (k, v)].

(** [del d[k]]; [None] stands for [KeyError]. *)
Definition del (k : callable) (d : t) : option t :=
  if mem k d
  then Some (map (fun e => if is_key k e then None else e) d)
  else None.

Record iter : Type := { di_used : nat; di_pos : nat; di_len : nat }.

Definition iter_new (d : t) : iter :=
  {| di_used := len d; di_pos := 0; di_len := len d |}.

(** First live entry of a run of slots, with the number of slots consumed
    to reach and pass it. *)
Fixpoint first_live (es : t) : option (callable * V * nat) :=
  match es with
  | [] => None
  | Some (k, v) :: _ => Some (k, v, 1%nat)
  | None :: es' =>
      match first_live es' with
      | Some (k, v, n) => Some (k, v, S n)
      | None => None
      end
  end.

Inductive step : Type :=
| Yield (k : callable) (v : V) (it : iter)
| Stop
| Changed.

Definition next (d : t) (it : iter) : step :=
  if Nat.eqb (len d) (di_used it)
  then match first_live (skipn (di_pos it) d) with
       | Some (k, v, n) =>
           match di_len it with
           | O => Changed
           | S expected =>
               Yield k v {| di_used := di_used it; di_pos := di_pos it + n;
                            di_len := expected |}
           end
       | None => Stop
       end
  else Changed.

End WithValue.
Arguments t : clear implicits.
End Dict.

(** ** The world: module globals, handles and Gamepad instances *)

Inductive Direction : Type := INPUT | OUTPUT.
Inductive Pull : Type := Pull_UP | Pull_DOWN.

(** A [digitalio.DigitalInOut] handle.  A new handle is an input without a
    pull resistor. *)
Record DigitalInOut : Type := mkDigitalInOut {
  dio_pin : pin;
  direction : Direction;
  pull : option Pull
}.

Definition DigitalInOut_new (button : pin) : DigitalInOut :=
  {| dio_pin := button; direction := INPUT; pull := None |}.
Definition set_direction (d : Direction) (dio : DigitalInOut) : DigitalInOut :=
  {| dio_pin := dio_pin dio; direction := d; pull := pull dio |}.
Definition set_pull (p : option Pull) (dio : DigitalInOut) : DigitalInOut :=
  {| dio_pin := dio_pin dio; direction := direction dio; pull := p |}.

(** The attributes of a [Gamepad] instance: [self.down] is the previous raw
    sample, [self.pressed] the buttons currently held. *)
Record Gamepad : Type := mkGamepad {
  down : list pin;
  pressed : list pin
}.

Definition Gamepad_init : Gamepad := {| down := []; pressed := [] |}.

Definition binding : Type := (callable * list pin * Z)%type.

Record World : Type := mkWorld {
  RUNNING : bool;
  INTERVALS : Dict.t (time * time);
  TIMERS : Dict.t time;
  BUTTONS : list pin;
  DIOS : list DigitalInOut;
  PRESSES : list binding;
  heap : list Gamepad;
  clock_reads : nat;
  polls : nat
}.

Definition initial : World :=
  {| RUNNING := true; INTERVALS := Dict.empty; TIMERS := Dict.empty;
     BUTTONS := []; DIOS := []; PRESSES := []; heap := [];
     clock_reads := 0; polls := 0 |}.

Definition set_RUNNING (b : bool) (w : World) : World :=
  mkWorld b (INTERVALS w) (TIMERS w) (BUTTONS w) (DIOS w) (PRESSES w)
          (heap w) (clock_reads w) (polls w).
Definition set_INTERVALS (d : Dict.t (time * time)) (w : World) : World :=
  mkWorld (RUNNING w) d (TIMERS w) (BUTTONS w) (DIOS w) (PRESSES w)
          (heap w) (clock_reads w) (polls w).
Definition set_TIMERS (d : Dict.t time) (w : World) : World :=
  mkWorld (RUNNING w) (INTERVALS w) d (BUTTONS w) (DIOS w) (PRESSES w)
          (heap w) (clock_reads w) (polls w).
Definition set_BUTTONS (l : list pin) (w : World) : World :=
  mkWorld (RUNNING w) (INTERVALS w) (TIMERS w) l (DIOS w) (PRESSES w)
          (heap w) (clock_reads w) (polls w).
Definition set_DIOS (l : list DigitalInOut) (w : World) : World :=
  mkWorld (RUNNING w) (INTERVALS w) (TIMERS w) (BUTTONS w) l (PRESSES w)
          (heap w) (clock_reads w) (polls w).
Definition set_PRESSES (l : list binding) (w : World) : World :=
  mkWorld (RUNNING w) (INTERVALS w) (TIMERS w) (BUTTONS w) (DIOS w) l
          (heap w) (clock_reads w) (polls w).
Definition set_heap (h : list Gamepad) (w : World) : World :=
  mkWorld (RUNNING w) (INTERVALS w) (TIMERS w) (BUTTONS w) (DIOS w) (PRESSES w)
          h (clock_reads w) (polls w).
Definition set_clock_reads (n : nat) (w : World) : World :=
  mkWorld (RUNNING w) (INTERVALS w) (TIMERS w) (BUTTONS w) (DIOS w) (PRESSES w)
          (heap w) n (polls w).
Definition set_polls (n : nat) (w : World) : World :=
  mkWorld (RUNNING w) (INTERVALS w) (TIMERS w) (BUTTONS w) (DIOS w) (PRESSES w)
          (heap w) (clock_reads w) n.

(** ** The environment *)

(** What a callback body does with the world it is entered in. *)
Inductive hres : Type :=
| HOk (w : World) (v : pyval)
| HRaise (e : exn) (w : World).

Record Env : Type := mkEnv {
  monotonic : nat -> time;          (* k-th reading of time.monotonic() *)
  pin_value : nat -> pin -> bool;   (* level of a pin during the k-th poll *)
  body : nat -> time -> World -> hres (* fn(now) for the function Fn id *)
}.

Definition time_monotonic (E : Env) (w : World) : time * World :=
  (monotonic E (clock_reads w), set_clock_reads (S (clock_reads w)) w).

(** ** Registration: tick, every, at, after, on, stop *)

Definition tick (fn : callable) (w : World) : World :=
  set_INTERVALS (Dict.set fn (0, 0) (INTERVALS w)) w.

Definition every (interval : time) (fn : callable) (w : World) : World :=
  set_INTERVALS (Dict.set fn (interval, 0) (INTERVALS w)) w.

(** [at(target, fn)]; [at] is a keyword of Rocq. *)
Definition at_ (target : time) (fn : callable) (w : World) : World :=
  set_TIMERS (Dict.set fn target (TIMERS w)) w.

Definition after (E : Env) (target : time) (fn : callable) (w : World) : World :=
  let (t, w1) := time_monotonic E w in
  set_TIMERS (Dict.set fn (t + target) (TIMERS w1)) w1.

(** One turn of the loop [for button in buttons] of [on]. *)
Definition on_button (w : World) (button : pin) : World :=
  if existsb (Nat.eqb button) (BUTTONS w) then w
  else
    let dio := DigitalInOut_new button in
    let dio := set_direction INPUT dio in
    let dio := set_pull (Some Pull_DOWN) dio in
    set_DIOS (DIOS w ++ [dio]) (set_BUTTONS (BUTTONS w ++ [button]) w).

(** [on(b1, ..., bn, action=action)]: the call itself, which returns the
    decorator [wrapper]. *)
Definition on (buttons : list pin) (action : Z) (w : World) : World :=
  fold_left on_button buttons w.

(** The decorator [wrapper] returned by that call, applied to [fn]. *)
Definition on_wrapper (buttons : list pin) (action : Z) (fn : callable)
    (w : World) : World :=
  set_PRESSES (PRESSES w ++ [(fn, buttons, action)]) w.

Definition stop (w : World) : World := set_RUNNING false w.

(** ** Runs *)

(** What a run leaves in its log, most recent event first: a call made by
    the loop over [INTERVALS] (with the entry the loop read), a call made by
    the loop over [TIMERS] (with the timer table as the callback finds it),
    a call made by the button dispatcher, a [time.sleep], a [print]. *)
Inductive event : Type :=
| EvPeriodic (fn : callable) (now interval last_called : time)
| EvTimer (fn : callable) (now target : time) (table : Dict.t time)
| EvButton (fn : callable) (now : time)
| EvSleep (d : time)
| EvPrint (msg : String.string).

Inductive outcome : Type :=
| Ok (v : pyval) (w : World) (log : list event)
| Raise (e : exn) (w : World) (log : list event)
| OutOfFuel (w : World) (log : list event).

Definition final_world (o : outcome) : World :=
  match o with Ok _ w _ | Raise _ w _ | OutOfFuel w _ => w end.
Definition final_log (o : outcome) : list event :=
  match o with Ok _ _ l | Raise _ _ l | OutOfFuel _ l => l end.

Definition lift (r : hres) (log : list event) : outcome :=
  match r with
  | HOk w v => Ok v w log
  | HRaise e w => Raise e w log
  end.

(** ** Gamepad.__call__: edge detector and button dispatcher *)

Definition pin_in (b : pin) (l : list pin) : bool := existsb (Nat.eqb b) l.

Fixpoint pins_eqb (a b : list pin) : bool :=
  match a, b with
  | [], [] => true
  | x :: a', y :: b' => Nat.eqb x y && pins_eqb a' b'
  | _, _ => false
  end.

(** [tuple(button for button, dio in zip(BUTTONS, DIOS) if dio.value)] *)
Definition read_pins (E : Env) (w : World) : list pin :=
  map fst (filter (fun bd => pin_value E (polls w) (dio_pin (snd bd)))
                  (combine (BUTTONS w) (DIOS w))).

(** [l.remove(b)]; [None] stands for [ValueError]. *)
Fixpoint list_remove (b : pin) (l : list pin) : option (list pin) :=
  match l with
  | [] => None
  | x :: l' =>
      if Nat.eqb x b then Some l'
      else match list_remove b l' with
           | Some r => Some (x :: r)
           | None => None
           end
  end.

(** [for btn in fresh_up: self.pressed.remove(btn)] *)
Fixpoint remove_each (bs : list pin) (l : list pin) : option (list pin) :=
  match bs with
  | [] => Some l
  | b :: bs' =>
      match list_remove b l with
      | Some l' => remove_each bs' l'
      | None => None
      end
  end.

Definition nonempty {A : Type} (l : list A) : bool :=
  match l with [] => false | _ => true end.

(** Lines 122 to 140 of [Gamepad.__call__]: the new attributes of the
    instance and, when the tick goes on to dispatch, the pair
    [(fresh_down, fresh_up)].  [None] stands for the [ValueError] of
    [list.remove]. *)
Definition edge_detect (raw : list pin) (self : Gamepad)
  : option (Gamepad * option (list pin * list pin)) :=
  if negb (pins_eqb raw (down self))
  then Some ({| down := raw; pressed := pressed self |}, None)
  else
    let fresh_down := filter (fun b => negb (pin_in b (pressed self))) raw in
    let fresh_up := filter (fun b => negb (pin_in b raw)) (pressed self) in
    let p1 := if nonempty fresh_down then pressed self ++ fresh_down
              else pressed self in
    match (if nonempty fresh_up then remove_each fresh_up p1 else Some p1) with
    | None => None
    | Some p2 =>
        let self' := {| down := down self; pressed := p2 |} in
        if negb (nonempty fresh_down || nonempty fresh_up)
        then Some (self', None)
        else Some (self', Some (fresh_down, fresh_up))
    end.

(** [all(b in fresh for b in buttons)] *)
Definition chord_in (buttons fresh : list pin) : bool :=
  forallb (fun b => pin_in b fresh) buttons.

(** The test that guards [v = fn(now)] in the loop over [PRESSES]. *)
Definition binding_fires (buttons : list pin) (action : Z)
    (fresh_down fresh_up : list pin) : bool :=
  if (action =? DOWN) && chord_in buttons fresh_down then true
  else (action =? UP) && chord_in buttons fresh_up.

(** What [fn(now)] does in a world, given the log so far. *)
Definition invoker : Type :=
  callable -> time -> World -> list event -> outcome.

(** Lines 142 to 151: [for (fn, buttons, action) in PRESSES], a list
    iterator, which is an index into the live list. *)
Fixpoint dispatch (invoke : invoker) (fuel : nat) (i : nat) (now : time)
    (fresh_down fresh_up : list pin) (w : World) (log : list event) : outcome :=
  match fuel with
  | O => OutOfFuel w log
  | S fuel' =>
      match nth_error (PRESSES w) i with
      | None => Ok VNone w log
      | Some (fn, buttons, action) =>
          let r :=
            if binding_fires buttons action fresh_down fresh_up
            then invoke fn now w (EvButton fn now :: log)
            else Ok VPropogate w log in
          match r with
          | Ok v w' log' =>
              if is_PROPOGATE v
              then dispatch invoke fuel' (S i) now fresh_down fresh_up w' log'
              else Ok VNone w' log'
          | other => other
          end
      end
  end.

(** [l] with its element at index [i] replaced by [x]. *)
Fixpoint store {A : Type} (i : nat) (x : A) (l : list A) : list A :=
  match l, i with
  | [], _ => []
  | _ :: l', O => x :: l'
  | y :: l', S i' => y :: store i' x l'
  end.

(** The pins have been sampled once more. *)
Definition polled (w : World) : World := set_polls (S (polls w)) w.

(** The attributes of the instance at [self] are now [gp]. *)
Definition write_back (self : nat) (gp : Gamepad) (w : World) : World :=
  set_heap (store self gp (heap w)) w.

(** [Gamepad.__call__(self, now)] for the instance at address [self]; an
    address that holds no instance ends in [ReferenceError]. *)
Definition Gamepad_call (E : Env) (invoke : invoker) (fuel : nat) (self : nat)
    (now : time) (w : World) (log : list event) : outcome :=
  match nth_error (heap w) self with
  | None => Raise ReferenceError w log
  | Some gp =>
      match edge_detect (read_pins E w) gp with
      | None => Raise ValueError (polled w) log
      | Some (gp', None) => Ok VNone (write_back self gp' (polled w)) log
      | Some (gp', Some (fresh_down, fresh_up)) =>
          dispatch invoke fuel 0 now fresh_down fresh_up
                   (write_back self gp' (polled w)) log
      end
  end.

(** [fn(now)] for any callable. *)
Fixpoint call (E : Env) (fuel : nat) (fn : callable) (now : time) (w : World)
    (log : list event) : outcome :=
  match fn with
  | Fn id => lift (body E id now w) log
  | GamepadObj addr =>
      match fuel with
      | O => OutOfFuel w log
      | S fuel' => Gamepad_call E (call E fuel') fuel' addr now w log
      end
  end.

(** ** start *)

(** [for fn, (interval, last_called) in INTERVALS.items()] *)
Fixpoint intervals_loop (E : Env) (fuel : nat) (it : Dict.iter) (now : time)
    (w : World) (log : list event) : outcome :=
  match fuel with
  | O => OutOfFuel w log
  | S fuel' =>
      match Dict.next (INTERVALS w) it with
      | Dict.Changed => Raise RuntimeError w log
      | Dict.Stop => Ok VNone w log
      | Dict.Yield fn (interval, last_called) it' =>
          let target := last_called + interval in
          if target <=? now
          then match call E fuel' fn now w
                          (EvPeriodic fn now interval last_called :: log) with
               | Ok _ w' log' =>
                   intervals_loop E fuel' it' now
                     (set_INTERVALS (Dict.set fn (interval, now) (INTERVALS w')) w')
                     log'
               | other => other
               end
          else intervals_loop E fuel' it' now w log
      end
  end.

(** [for fn, target in TIMERS.items()] *)
Fixpoint timers_loop (E : Env) (fuel : nat) (it : Dict.iter) (now : time)
    (w : World) (log : list event) : outcome :=
  match fuel with
  | O => OutOfFuel w log
  | S fuel' =>
      match Dict.next (TIMERS w) it with
      | Dict.Changed => Raise RuntimeError w log
      | Dict.Stop => Ok VNone w log
      | Dict.Yield fn target it' =>
          if target <=? now
          then match Dict.del fn (TIMERS w) with
               | None => Raise KeyError w log
               | Some d =>
                   match call E fuel' fn now (set_TIMERS d w)
                              (EvTimer fn now target d :: log) with
                   | Ok _ w' log' => timers_loop E fuel' it' now w' log'
                   | other => other
                   end
               end
          else timers_loop E fuel' it' now w log
      end
  end.

(** [min(l)]; [None] stands for the [ValueError] of an empty argument. *)
Definition py_min (l : list Z) : option Z :=
  match l with
  | [] => None
  | x :: l' => Some (fold_left Z.min l' x)
  end.

(** The argument of [min] on lines 103 to 106.  The comprehension unpacks
    each value of [INTERVALS] as [last_called, interval]. *)
Definition wake_candidates (w : World) : list time :=
  map (fun v : time * time => let (last_called, interval) := v in
                              last_called + interval)
      (Dict.values (INTERVALS w))
  ++ Dict.values (TIMERS w).

Definition next_target (w : World) : option time := py_min (wake_candidates w).

(** The inner [while True] of lines 108 to 114. *)
Fixpoint park (E : Env) (fuel : nat) (target : time) (w : World)
    (log : list event) : outcome :=
  match fuel with
  | O => OutOfFuel w log
  | S fuel' =>
      let (t, w1) := time_monotonic E w in
      let slp := target - t in
      if 0 <? slp then park E fuel' target w1 (EvSleep slp :: log)
      else Ok VNone w1 log
  end.

Open Scope string_scope.
Definition quitting : String.string :=
  "No functions registered, quitting".
Close Scope string_scope.

(** The outer [while True] of lines 85 to 114. *)
Fixpoint main_loop (E : Env) (fuel : nat) (w : World) (log : list event)
  : outcome :=
  match fuel with
  | O => OutOfFuel w log
  | S fuel' =>
      if (Dict.len (TIMERS w) =? 0)%nat && (Dict.len (INTERVALS w) =? 0)%nat
      then Ok (VNum 0) w (EvPrint quitting :: log)
      else
        let (now, w1) := time_monotonic E w in
        match intervals_loop E fuel' (Dict.iter_new (INTERVALS w1)) now w1 log with
        | Ok _ w2 log2 =>
            match timers_loop E fuel' (Dict.iter_new (TIMERS w2)) now w2 log2 with
            | Ok _ w3 log3 =>
                match next_target w3 with
                | None => Raise ValueError w3 log3
                | Some target =>
                    match park E fuel' target w3 log3 with
                    | Ok _ w4 log4 => main_loop E fuel' w4 log4
                    | other => other
                    end
                end
            | other => other
            end
        | other => other
        end
  end.

(** [Gamepad()]: a new instance at the next heap address. *)
Definition Gamepad_new (w : World) : callable * World :=
  (GamepadObj (length (heap w)), set_heap (heap w ++ [Gamepad_init]) w).

(** Lines 82 and 83: [if PRESSES: every(0.02)(Gamepad())]. *)
Definition start_setup (w : World) : World :=
  if nonempty (PRESSES w)
  then let (gp, w') := Gamepad_new w in every 20 gp w'
  else w.

Definition start (E : Env) (fuel : nat) (w : World) (log : list event)
  : outcome :=
  main_loop E fuel (start_setup w) log.

(** ** Definitions used to state the properties *)

(** One use of the decorator: [on(b1, ..., bn, action=action)(fn)]. *)
Definition registration : Type := (list pin * Z * callable)%type.

Definition chord_of (r : registration) : list pin := fst (fst r).

Definition register (w : World) (r : registration) : World :=
  let '(buttons, action, fn) := r in
  on_wrapper buttons action fn (on buttons action w).

Definition register_from (w : World) (rs : list registration) : World :=
  fold_left register rs w.

(** The world after a sequence of button registrations made on the freshly
    imported module. *)
Definition register_all (rs : list registration) : World :=
  register_from initial rs.

(** The binding a registration appends to [PRESSES]. *)
Definition binding_of (r : registration) : binding :=
  let '(buttons, action, fn) := r in (fn, buttons, action).

(** A handle set up as a pulled-down input. *)
Definition configured (dio : DigitalInOut) : Prop :=
  direction dio = INPUT /\ pull dio = Some Pull_DOWN.

(** The tracked pins are distinct, handle [k] belongs to pin [k], and every
    handle is set up. *)
Definition pins_inv (w : World) : Prop :=
  NoDup (BUTTONS w) /\
  map dio_pin (DIOS w) = BUTTONS w /\
  Forall configured (DIOS w).

(** The wake times of the scheduler's description: [last_fired + interval]
    of every periodic task, each stored as the pair [(interval, last_fired)],
    and the deadline of every one-shot timer. *)
Definition due_times (w : World) : list time :=
  map (fun task : time * time => let (interval, last_fired) := task in
                                 last_fired + interval)
      (Dict.values (INTERVALS w))
  ++ Dict.values (TIMERS w).

Definition is_minimum (m : Z) (l : list Z) : Prop :=
  In m l /\ forall x, In x l -> m <= x.

(** Set difference of two pin sequences, in the order of the first. *)
Definition set_minus (a b : list pin) : list pin :=
  filter (fun x => negb (pin_in x b)) a.

(** Two pin sequences hold the same pins. *)
Definition same_pins (a b : list pin) : Prop := forall x, In x a <-> In x b.

(** The actions of a binding and the codes [on] stores for them. *)
Inductive Action : Type := PRESS | RELEASE.

Definition action_code (a : Action) : Z :=
  match a with PRESS => DOWN | RELEASE => UP end.

(** The button dispatcher as the design describes it, over a fixed sequence
    of bindings in registration order: a binding that does not match is
    skipped, a binding that matches has its handler called, and once a
    handler returns something other than the sentinel no further binding is
    looked at. *)
Fixpoint dispatch_spec (invoke : invoker) (bindings : list binding)
    (now : time) (fresh_down fresh_up : list pin) (w : World)
    (log : list event) : outcome :=
  match bindings with
  | [] => Ok VNone w log
  | (fn, chord, action) :: rest =>
      if ((action =? DOWN) && chord_in chord fresh_down)
         || ((action =? UP) && chord_in chord fresh_up)
      then match invoke fn now w (EvButton fn now :: log) with
           | Ok VPropogate w' log' =>
               dispatch_spec invoke rest now fresh_down fresh_up w' log'
           | Ok _ w' log' => Ok VNone w' log'
           | other => other
           end
      else dispatch_spec invoke rest now fresh_down fresh_up w log
  end.

(** The world a callback body leaves. *)
Definition hres_world (r : hres) : World :=
  match r with HOk w _ | HRaise _ w => w end.

Definition is_button (ev : event) : Prop :=
  match ev with EvButton _ _ => True | _ => False end.




(** The number of calls of [fn] made by the loop over [TIMERS]. *)
Fixpoint timer_fires (fn : callable) (log : list event) : nat :=
  match log with
  | [] => 0%nat
  | EvTimer g _ _ _ :: log' =>
      if callable_eqb g fn then S (timer_fires fn log') else timer_fires fn log'
  | _ :: log' => timer_fires fn log'
  end.

(** A call made by the loop over [TIMERS] came at or after the deadline and
    found its own entry gone from the table. *)
Definition timer_due_and_removed (ev : event) : Prop :=
  match ev with
  | EvTimer fn now target table => target <= now /\ Dict.mem fn table = false
  | _ => True
  end.

(** The number of calls made by the loop over [INTERVALS]. *)
Fixpoint periodic_calls (log : list event) : nat :=
  match log with
  | [] => 0%nat
  | EvPeriodic _ _ _ _ :: log' => S (periodic_calls log')
  | _ :: log' => periodic_calls log'
  end.

(** A run that began in world [w] with log [log] ended in a world related
    to [w] by [P], having added nothing but dispatcher calls to the log. *)
Definition framed (P : World -> World -> Prop) (w : World) (log : list event)
    (o : outcome) : Prop :=
  P w (final_world o) /\
  exists l, final_log o = l ++ log /\ Forall is_button l.

(** A part of the loop ended with [I] when it completed and with [Q] when
    it raised or ran out of fuel. *)
Definition ends_well (I Q : World -> list event -> Prop) (o : outcome) : Prop :=
  match o with
  | Ok _ w log => I w log
  | Raise _ w log | OutOfFuel w log => Q w log
  end.

(** [w2] is [w1] up to the value of [RUNNING]. *)
Definition up_to_RUNNING (w1 w2 : World) : Prop :=
  exists b, w2 = set_RUNNING b w1.

(** Two callback bodies did the same, up to [RUNNING]. *)
Definition same_hres (r1 r2 : hres) : Prop :=
  match r1, r2 with
  | HOk w1 v1, HOk w2 v2 => v1 = v2 /\ up_to_RUNNING w1 w2
  | HRaise e1 w1, HRaise e2 w2 => e1 = e2 /\ up_to_RUNNING w1 w2
  | _, _ => False
  end.

(** Two runs ended the same way, with the same log, in the same world up
    to [RUNNING]. *)
Definition same_outcome (o1 o2 : outcome) : Prop :=
  match o1, o2 with
  | Ok v1 w1 l1, Ok v2 w2 l2 => v1 = v2 /\ up_to_RUNNING w1 w2 /\ l1 = l2
  | Raise e1 w1 l1, Raise e2 w2 l2 =>
      e1 = e2 /\ up_to_RUNNING w1 w2 /\ l1 = l2
  | OutOfFuel w1 l1, OutOfFuel w2 l2 => up_to_RUNNING w1 w2 /\ l1 = l2
  | _, _ => False
  end.

(** The edge detector run over successive samples, from the attributes
    [self]: the attributes at the end and the event sets produced, in order.
    [None] stands for the [ValueError] of [list.remove]. *)
Fixpoint feed (samples : list (list pin)) (self : Gamepad)
  : option (Gamepad * list (list pin * list pin)) :=
  match samples with
  | [] => Some (self, [])
  | raw :: rest =>
      match edge_detect raw self with
      | None => None
      | Some (self', ev) =>
          match feed rest self' with
          | None => None
          | Some (last, evs) =>
              Some (last, match ev with Some e => e :: evs | None => evs end)
          end
      end
  end.

(** No callable has two entries in the table. *)
Definition distinct_keys {V : Type} (d : Dict.t V) : Prop :=
  NoDup (Dict.keys d).

Definition tables_ok (w : World) : Prop :=
  distinct_keys (INTERVALS w) /\ distinct_keys (TIMERS w).

(** Some callback body raises [e] in some world. *)
Definition raised_by (E : Env) (e : exn) : Prop :=
  exists id now w w', body E id now w = HRaise e w'.

(** A [time.sleep] of a positive duration. *)
Definition is_positive_sleep (ev : event) : Prop :=
  match ev with EvSleep d => 0 < d | _ => False end.

(** An entry of [INTERVALS] is due at [now]. *)
Definition due (now : time) (kv : callable * (time * time)) : bool :=
  let '(_, (interval, last_called)) := kv in last_called + interval <=? now.

(** A slot of [INTERVALS] after the cycle sampled at [now]: a due entry is
    stamped with [now]. *)
Definition stamp (now : time) (e : option (callable * (time * time)))
  : option (callable * (time * time)) :=
  match e with
  | Some (fn, (interval, last_called)) =>
      if last_called + interval <=? now then Some (fn, (interval, now)) else e
  | None => None
  end.

(** The log entry of the call of a due entry. *)
Definition periodic_event (now : time) (kv : callable * (time * time)) : event :=
  let '(fn, (interval, last_called)) := kv in
  EvPeriodic fn now interval last_called.

(** The durations of the [time.sleep] calls of a log. *)
Fixpoint sleeps (log : list event) : list time :=
  match log with
  | [] => []
  | EvSleep d :: log' => d :: sleeps log'
  | _ :: log' => sleeps log'
  end.

(** [fn] is registered in [INTERVALS] with an interval of 0, as [tick]
    registers it, and was last called at or before [now]. *)
Definition tick_entry (fn : callable) (now : time) (w : World) : Prop :=
  Dict.mem fn (INTERVALS w) = true /\
  forall interval last,
    In (fn, (interval, last)) (Dict.items (INTERVALS w)) ->
    interval = 0 /\ last <= now.

(** From [w] to [w'] the entry of [fn] in [INTERVALS] was neither removed
    nor replaced, and the clock was not read backwards. *)
Definition keeps_entry (fn : callable) (w w' : World) : Prop :=
  (clock_reads w <= clock_reads w')%nat /\
  (Dict.mem fn (INTERVALS w) = true -> Dict.mem fn (INTERVALS w') = true) /\
  (forall v, In (fn, v) (Dict.items (INTERVALS w')) ->
             In (fn, v) (Dict.items (INTERVALS w))).



(** A callback that leaves the [Gamepad] instances and the bindings as they
    were. *)
Definition leaves_gamepads (r : hres) (w : World) : Prop :=
  heap (hres_world r) = heap w /\ PRESSES (hres_world r) = PRESSES w.

(** Every handler bound to a chord is a function of the application. *)
Definition handlers_are_functions (w : World) : Prop :=
  forall fn chord action,
    In (fn, chord, action) (PRESSES w) -> exists id, fn = Fn id.

(** ** Boards and applications used as examples *)

(** A clock that advances by one millisecond per reading. *)
Definition ms_clock (k : nat) : time := Z.of_nat k.

Definition no_pins (k : nat) (p : pin) : bool := false.

(** Every callback calls [stop()]. *)
Definition stopping_app : Env :=
  {| monotonic := ms_clock; pin_value := no_pins;
     body := fun _ _ w => HOk (stop w) VNone |}.

(** Every callback returns at once. *)
Definition idle_app : Env :=
  {| monotonic := ms_clock; pin_value := no_pins;
     body := fun _ _ w => HOk w VNone |}.

(** Every callback registers itself again, three milliseconds after the
    time it was called with: [at(now + 3, fn)]. *)
Definition rearming_app : Env :=
  {| monotonic := ms_clock; pin_value := no_pins;
     body := fun id now w => HOk (at_ (now + 3) (Fn id) w) VNone |}.

(** Every callback empties the timer table and registers itself again:
    [TIMERS.clear(); at(now + 3, fn)]. *)
Definition cancelling_app : Env :=
  {| monotonic := ms_clock; pin_value := no_pins;
     body := fun id now w =>
               HOk (at_ (now + 3) (Fn id) (set_TIMERS Dict.empty w)) VNone |}.

(** Every callback raises. *)
Definition faulting_app : Env :=
  {| monotonic := ms_clock; pin_value := no_pins;
     body := fun _ _ w => HRaise (AppError 1) w |}.

(** Every callback returns the sentinel. *)
Definition propagating_app : Env :=
  {| monotonic := ms_clock; pin_value := no_pins;
     body := fun _ _ w => HOk w VPropogate |}.

(** A periodic task and a one-shot timer, registered on the freshly imported
    module. *)
Definition task_and_timer : World := every 500 (Fn 1) (at_ 40 (Fn 0) initial).

(** Two bindings on overlapping chords: [(Fn 1, {1, 2}, press)] registered
    first, [(Fn 2, {1}, press)] second. *)
Definition two_chords : World :=
  register_all [([1%nat; 2%nat], DOWN, Fn 1); ([1%nat], DOWN, Fn 2)].

(** One one-shot timer, due at time 0. *)
Definition one_timer : World := at_ 0 (Fn 0) initial.


(** One tick task. *)
Definition one_tick : World := tick (Fn 0) initial.

(** The world of [one_tick] after some cycles: the task was last called at
    [last] and the clock has been read [k] times. *)
Definition ticking (running : bool) (last : time) (k : nat) : World :=
  {| RUNNING := running; INTERVALS := [Some (Fn 0, (0, last))];
     TIMERS := []; BUTTONS := []; DIOS := []; PRESSES := []; heap := [];
     clock_reads := k; polls := 0 |}.

(** [start()] has returned. *)
Definition returned (o : outcome) : bool :=
  match o with Ok _ _ _ => true | _ => false end.

(** A tick task registered first and a task with an interval of 5 ms
    registered second. *)
Definition two_tasks : World := every 5 (Fn 1) (tick (Fn 0) initial).

(** A tick task that was last called at 900 ms. *)
Definition late_tick : World := ticking true 900 3.

(** Pin 1 is held down at every poll and every callback raises. *)
Definition held_faulting_app : Env :=
  {| monotonic := ms_clock; pin_value := fun _ p => Nat.eqb p 1;
     body := fun _ _ w => HRaise (AppError 1) w |}.

(** The board of [two_chords] with one [Gamepad] instance that has sampled
    pin 1 once and holds nothing yet. *)
Definition sampled_once : World :=
  set_heap [{| down := [1%nat]; pressed := [] |}] two_chords.

(** * Properties *)

(** ** Basic facts *)

Lemma callable_eqb_eq (f g : callable) : callable_eqb f g = true <-> f = g.
Proof.
  destruct f as [a|a], g as [b|b]; simpl;
    try (split; [discriminate | intros H; inversion H]);
    rewrite Nat.eqb_eq; split; intros H; try (inversion H); subst; reflexivity.
Qed.

Lemma callable_eqb_refl (f : callable) : callable_eqb f f = true.
Proof. apply callable_eqb_eq; reflexivity. Qed.

Lemma callable_eqb_neq (f g : callable) : callable_eqb f g = false <-> f <> g.
Proof.
  split.
  - intros H Heq. apply callable_eqb_eq in Heq. congruence.
  - intros H. destruct (callable_eqb f g) eqn:Hfg; [|reflexivity].
    apply callable_eqb_eq in Hfg. contradiction.
Qed.

Lemma pin_in_In (b : pin) (l : list pin) : pin_in b l = true <-> In b l.
Proof.
  unfold pin_in. rewrite existsb_exists. split.
  - intros (x & Hx & Heq). apply Nat.eqb_eq in Heq. subst. exact Hx.
  - intros H. exists b. split; [exact H | apply Nat.eqb_refl].
Qed.

Lemma pin_in_false (b : pin) (l : list pin) : pin_in b l = false <-> ~ In b l.
Proof.
  rewrite <- pin_in_In. destruct (pin_in b l); split; congruence.
Qed.

(** ** Registration of buttons *)

Lemma on_button_tracked (w : World) (b : pin) :
  In b (BUTTONS w) -> on_button w b = w.
Proof.
  intros H. unfold on_button. fold (pin_in b (BUTTONS w)).
  apply pin_in_In in H. rewrite H. reflexivity.
Qed.

Lemma on_button_new (w : World) (b : pin) :
  ~ In b (BUTTONS w) ->
  BUTTONS (on_button w b) = BUTTONS w ++ [b] /\
  DIOS (on_button w b)
  = DIOS w ++ [{| dio_pin := b; direction := INPUT; pull := Some Pull_DOWN |}] /\
  PRESSES (on_button w b) = PRESSES w.
Proof.
  intros H. unfold on_button. fold (pin_in b (BUTTONS w)).
  apply pin_in_false in H. rewrite H. simpl. auto.
Qed.

Lemma on_button_inv (w : World) (b : pin) :
  pins_inv w -> pins_inv (on_button w b).
Proof.
  intros (Hnd & Hal & Hcf).
  destruct (in_dec Nat.eq_dec b (BUTTONS w)) as [Hin|Hout].
  - rewrite on_button_tracked by exact Hin. repeat split; assumption.
  - destruct (on_button_new w b Hout) as (Hb & Hd & _).
    unfold pins_inv. rewrite Hb, Hd. repeat split.
    + apply NoDup_app; [exact Hnd | repeat constructor; intros [] | ].
      intros x Hx [Hx'|[]]. subst. contradiction.
    + rewrite map_app, Hal. reflexivity.
    + apply Forall_app. split; [exact Hcf|].
      repeat constructor.
Qed.

Lemma on_button_In (w : World) (b p : pin) :
  In p (BUTTONS (on_button w b)) <-> In p (BUTTONS w) \/ p = b.
Proof.
  destruct (in_dec Nat.eq_dec b (BUTTONS w)) as [Hin|Hout].
  - rewrite on_button_tracked by exact Hin. split; [auto|].
    intros [H|H]; [exact H | subst; exact Hin].
  - destruct (on_button_new w b Hout) as (Hb & _). rewrite Hb, in_app_iff.
    simpl. split; intros [H|H]; auto.
    destruct H as [H|[]]. auto.
Qed.

Lemma on_button_extends (w : World) (b : pin) :
  exists bs ds, BUTTONS (on_button w b) = BUTTONS w ++ bs /\
                DIOS (on_button w b) = DIOS w ++ ds.
Proof.
  destruct (in_dec Nat.eq_dec b (BUTTONS w)) as [Hin|Hout].
  - rewrite on_button_tracked by exact Hin. exists [], [].
    rewrite !app_nil_r. auto.
  - destruct (on_button_new w b Hout) as (Hb & Hd & _). eauto.
Qed.

Lemma on_button_PRESSES (w : World) (b : pin) :
  PRESSES (on_button w b) = PRESSES w.
Proof.
  unfold on_button. destruct (existsb _ _); reflexivity.
Qed.

Lemma on_inv (buttons : list pin) (action : Z) (w : World) :
  pins_inv w -> pins_inv (on buttons action w).
Proof.
  unfold on. revert w. induction buttons as [|b bs IH]; intros w H; simpl.
  - exact H.
  - apply IH, on_button_inv, H.
Qed.

Lemma on_In (buttons : list pin) (action : Z) (w : World) (p : pin) :
  In p (BUTTONS (on buttons action w)) <-> In p (BUTTONS w) \/ In p buttons.
Proof.
  unfold on. revert w. induction buttons as [|b bs IH]; intros w; simpl.
  - tauto.
  - rewrite IH, on_button_In. intuition auto.
Qed.

Lemma on_extends (buttons : list pin) (action : Z) (w : World) :
  exists bs ds, BUTTONS (on buttons action w) = BUTTONS w ++ bs /\
                DIOS (on buttons action w) = DIOS w ++ ds.
Proof.
  unfold on. revert w. induction buttons as [|b bs IH]; intros w; simpl.
  - exists [], []. rewrite !app_nil_r. auto.
  - destruct (IH (on_button w b)) as (l1 & d1 & H1 & H2).
    destruct (on_button_extends w b) as (l0 & d0 & H3 & H4).
    exists (l0 ++ l1), (d0 ++ d1). rewrite H1, H2, H3, H4, !app_assoc. auto.
Qed.

Lemma on_PRESSES (buttons : list pin) (action : Z) (w : World) :
  PRESSES (on buttons action w) = PRESSES w.
Proof.
  unfold on. revert w. induction buttons as [|b bs IH]; intros w; simpl.
  - reflexivity.
  - rewrite IH. apply on_button_PRESSES.
Qed.

Lemma register_from_inv (rs : list registration) (w : World) :
  pins_inv w -> pins_inv (register_from w rs).
Proof.
  unfold register_from. revert w.
  induction rs as [|[[buttons action] fn] rs IH]; intros w H; simpl.
  - exact H.
  - apply IH. apply (on_inv buttons action) in H. exact H.
Qed.

Lemma register_from_In (rs : list registration) (w : World) (p : pin) :
  In p (BUTTONS (register_from w rs)) <->
  In p (BUTTONS w) \/ exists r, In r rs /\ In p (chord_of r).
Proof.
  unfold register_from. revert w.
  induction rs as [|[[buttons action] fn] rs IH]; intros w; simpl.
  - split; [auto|]. intros [H|(r & [] & _)]. exact H.
  - rewrite IH. change (BUTTONS (on_wrapper buttons action fn (on buttons action w)))
      with (BUTTONS (on buttons action w)).
    rewrite on_In. split.
    + intros [[H|H]|(r & Hr & Hp)].
      * auto.
      * right. exists (buttons, action, fn). auto.
      * right. exists r. auto.
    + intros [H|(r & [Hr|Hr] & Hp)].
      * auto.
      * subst r. auto.
      * right. exists r. auto.
Qed.

Lemma register_from_extends (rs : list registration) (w : World) :
  exists bs ds, BUTTONS (register_from w rs) = BUTTONS w ++ bs /\
                DIOS (register_from w rs) = DIOS w ++ ds.
Proof.
  unfold register_from. revert w.
  induction rs as [|[[buttons action] fn] rs IH]; intros w; simpl.
  - exists [], []. rewrite !app_nil_r. auto.
  - destruct (IH (on_wrapper buttons action fn (on buttons action w)))
      as (l1 & d1 & H1 & H2).
    destruct (on_extends buttons action w) as (l0 & d0 & H3 & H4).
    exists (l0 ++ l1), (d0 ++ d1). rewrite H1, H2. simpl.
    rewrite H3, H4, !app_assoc. auto.
Qed.

Lemma register_from_PRESSES (rs : list registration) (w : World) :
  PRESSES (register_from w rs) = PRESSES w ++ map binding_of rs.
Proof.
  unfold register_from. revert w.
  induction rs as [|[[buttons action] fn] rs IH]; intros w; simpl.
  - rewrite app_nil_r. reflexivity.
  - rewrite IH. simpl. rewrite on_PRESSES, <- app_assoc. reflexivity.
Qed.

Lemma pins_inv_initial : pins_inv initial.
Proof. repeat split; constructor. Qed.

Lemma aligned_read_pins (E : Env) (w : World) :
  map dio_pin (DIOS w) = BUTTONS w ->
  read_pins E w = filter (pin_value E (polls w)) (BUTTONS w).
Proof.
  unfold read_pins. intros H. rewrite <- H. clear H.
  generalize (polls w). intros k.
  induction (DIOS w) as [|d ds IH]; simpl.
  - reflexivity.
  - destruct (pin_value E k (dio_pin d)); simpl; rewrite IH; reflexivity.
Qed.

(** C10.  After any sequence of button registrations the tracked pins are
    pairwise distinct although chords may share pins, the handle at position
    [k] of [DIOS] is the handle of the pin at position [k] of [BUTTONS], every
    handle is an input pulled down, the tracked pins are exactly the pins
    some chord mentions, each of them owns exactly one handle, and a later
    registration only appends to both sequences: pins tracked earlier keep
    their position and their handle, so a pin is set up once, when it is first
    mentioned.  The alignment is what [Gamepad.__call__] relies on when it
    zips the two sequences: it reads every tracked pin through its own
    handle. *)
Theorem tracked_pins_once_and_aligned :
  forall (rs more : list registration),
    let w := register_all rs in
    NoDup (BUTTONS w) /\
    map dio_pin (DIOS w) = BUTTONS w /\
    Forall configured (DIOS w) /\
    (forall p, In p (BUTTONS w) <-> exists r, In r rs /\ In p (chord_of r)) /\
    (forall p, In p (BUTTONS w) ->
               count_occ Nat.eq_dec (map dio_pin (DIOS w)) p = 1%nat) /\
    (exists bs ds, BUTTONS (register_all (rs ++ more)) = BUTTONS w ++ bs /\
                   DIOS (register_all (rs ++ more)) = DIOS w ++ ds) /\
    (forall E, read_pins E w = filter (pin_value E (polls w)) (BUTTONS w)).
Proof.
  intros rs more w.
  destruct (register_from_inv rs initial pins_inv_initial) as (Hnd & Hal & Hcf).
  fold (register_all rs) in Hnd, Hal, Hcf. fold w in Hnd, Hal, Hcf.
  repeat split; try assumption.
  - intros H. apply (register_from_In rs initial p) in H.
    destruct H as [[]|H]. exact H.
  - intros H. apply (register_from_In rs initial p). auto.
  - intros p Hp. rewrite Hal.
    apply (proj1 (NoDup_count_occ' Nat.eq_dec (BUTTONS w)) Hnd p Hp).
  - unfold register_all, register_from. rewrite fold_left_app.
    apply (register_from_extends more).
  - intros E. apply aligned_read_pins, Hal.
Qed.

(** C5 (as the code has it).  Calling [on] with no pin raises nothing and
    registers nothing on the pin side: the world is unchanged, and the
    decorator it returns appends a binding whose chord is empty. *)
Theorem on_empty_chord_accepted :
  forall (w : World) (action : Z) (fn : callable),
    on [] action w = w /\
    PRESSES (on_wrapper [] action fn (on [] action w))
    = PRESSES w ++ [(fn, [], action)].
Proof.
  intros w action fn. split; reflexivity.
Qed.

(** C5, counterexample.  On the freshly imported module, [on()] applied to a
    function leaves one binding, with an empty chord, in [PRESSES]: the
    registration is accepted. *)
Lemma on_empty_chord_adds_binding :
  PRESSES (on_wrapper [] DOWN (Fn 0) (on [] DOWN initial))
  = [(Fn 0, [], DOWN)] /\
  binding_fires [] DOWN [7%nat] [] = true.
Proof.
  split; reflexivity.
Qed.

(** ** The next wake time *)

Lemma wake_candidates_due_times (w : World) : wake_candidates w = due_times w.
Proof.
  unfold wake_candidates, due_times. f_equal.
  apply map_ext. intros [a b]. apply Z.add_comm.
Qed.

Lemma fold_left_min_le (l : list Z) (x : Z) :
  fold_left Z.min l x <= x /\ forall y, In y l -> fold_left Z.min l x <= y.
Proof.
  revert x. induction l as [|a l IH]; intros x; simpl.
  - split; [lia | intros y []].
  - destruct (IH (Z.min x a)) as (H1 & H2). split; [lia|].
    intros y [Hy|Hy]; [subst; lia | apply H2, Hy].
Qed.

Lemma fold_left_min_In (l : list Z) (x : Z) : In (fold_left Z.min l x) (x :: l).
Proof.
  revert x. induction l as [|a l IH]; intros x; simpl.
  - auto.
  - destruct (IH (Z.min x a)) as [H|H].
    + rewrite <- H.
      destruct (Z.min_spec x a) as [(_ & Hm)|(_ & Hm)]; rewrite Hm; auto.
    + auto.
Qed.

Lemma py_min_minimum (l : list Z) (m : Z) : py_min l = Some m -> is_minimum m l.
Proof.
  destruct l as [|x l]; simpl; [discriminate|].
  intros H. inversion H; subst. split.
  - apply fold_left_min_In.
  - destruct (fold_left_min_le l x) as (H1 & H2).
    intros y [Hy|Hy]; [subst; exact H1 | apply H2, Hy].
Qed.

Lemma due_times_length (w : World) :
  length (due_times w) = (Dict.len (INTERVALS w) + Dict.len (TIMERS w))%nat.
Proof.
  unfold due_times, Dict.len, Dict.values.
  rewrite length_app, !length_map. reflexivity.
Qed.

(** C9.  Whenever at least one entry is left in the two tables, the next
    wake time the loop computes is defined and is the minimum of
    [last_fired + interval] over the periodic tasks and of the deadlines over
    the one-shot timers; reading each stored pair [(interval, last_fired)] in
    the other order, as the code does, gives the same sums. *)
Theorem next_wake_is_minimum :
  forall w : World,
    (0 < Dict.len (INTERVALS w) + Dict.len (TIMERS w))%nat ->
    exists m, next_target w = Some m /\ is_minimum m (due_times w).
Proof.
  intros w H. unfold next_target. rewrite wake_candidates_due_times.
  rewrite <- due_times_length in H.
  destruct (py_min (due_times w)) as [m|] eqn:Hm.
  - exists m. split; [reflexivity | apply py_min_minimum, Hm].
  - destruct (due_times w); [simpl in H; lia | discriminate].
Qed.

Lemma next_wake_is_minimum_witness :
  (0 < Dict.len (INTERVALS task_and_timer)
       + Dict.len (TIMERS task_and_timer))%nat /\
  exists m, next_target task_and_timer = Some m /\
            is_minimum m (due_times task_and_timer).
Proof.
  split.
  - vm_compute. lia.
  - apply (next_wake_is_minimum task_and_timer). vm_compute. lia.
Defined.

(** ** The edge detector *)

Lemma pins_eqb_eq (a b : list pin) : pins_eqb a b = true <-> a = b.
Proof.
  revert b. induction a as [|x a IH]; intros [|y b]; simpl;
    try (split; [reflexivity || discriminate | reflexivity || discriminate]).
  rewrite andb_true_iff, Nat.eqb_eq, IH. split.
  - intros [-> ->]. reflexivity.
  - intros H. inversion H. auto.
Qed.

Lemma set_minus_In (a b : list pin) (x : pin) :
  In x (set_minus a b) <-> In x a /\ ~ In x b.
Proof.
  unfold set_minus. rewrite filter_In, negb_true_iff, pin_in_false. tauto.
Qed.


Lemma remove_each_cons (a : pin) (bs l l' : list pin) :
  ~ In a bs -> remove_each bs l = Some l' ->
  remove_each bs (a :: l) = Some (a :: l').
Proof.
  revert l. induction bs as [|b bs IH]; intros l Ha H; simpl in *.
  - inversion H. reflexivity.
  - destruct (Nat.eqb a b) eqn:Hab.
    + apply Nat.eqb_eq in Hab. subst. exfalso. auto.
    + destruct (list_remove b l) as [r|]; [|discriminate].
      apply IH; [intros Hin; auto | exact H].
Qed.

(** Removing, one after the other, the held pins that are no longer in the
    sample leaves the held pins that still are, followed by the rest of the
    list; [list.remove] never fails on the way. *)
Lemma remove_each_filter (raw p s : list pin) :
  remove_each (set_minus p raw) (p ++ s)
  = Some (filter (fun b => pin_in b raw) p ++ s).
Proof.
  induction p as [|a p IH]; simpl.
  - reflexivity.
  - destruct (pin_in a raw) eqn:Ha; simpl.
    + apply remove_each_cons; [|exact IH].
      intros Hin. apply set_minus_In in Hin. apply pin_in_In in Ha. tauto.
    + rewrite Nat.eqb_refl. exact IH.
Qed.

Lemma held_after_update (raw held : list pin) :
  same_pins (filter (fun b => pin_in b raw) held ++ set_minus raw held) raw.
Proof.
  intros x. rewrite in_app_iff, filter_In, set_minus_In, pin_in_In.
  destruct (in_dec Nat.eq_dec x held); tauto.
Qed.

Lemma edge_detect_stable (raw : list pin) (self : Gamepad) :
  raw = down self ->
  edge_detect raw self
  = let fresh_down := set_minus raw (pressed self) in
    let fresh_up := set_minus (pressed self) raw in
    let self' := {| down := raw;
                    pressed := filter (fun b => pin_in b raw) (pressed self)
                               ++ fresh_down |} in
    if negb (nonempty fresh_down || nonempty fresh_up)
    then Some (self', None)
    else Some (self', Some (fresh_down, fresh_up)).
Proof.
  intros Heq. unfold edge_detect.
  assert (Hb : pins_eqb raw (down self) = true) by (apply pins_eqb_eq, Heq).
  rewrite Hb. simpl. fold (set_minus raw (pressed self)).
  fold (set_minus (pressed self) raw). rewrite <- Heq.
  assert (Hrm :
    (if nonempty (set_minus (pressed self) raw)
     then remove_each (set_minus (pressed self) raw)
            (if nonempty (set_minus raw (pressed self))
             then pressed self ++ set_minus raw (pressed self)
             else pressed self)
     else Some (if nonempty (set_minus raw (pressed self))
                then pressed self ++ set_minus raw (pressed self)
                else pressed self))
    = Some (filter (fun b => pin_in b raw) (pressed self)
            ++ set_minus raw (pressed self))).
  { assert (Hp1 : (if nonempty (set_minus raw (pressed self))
                   then pressed self ++ set_minus raw (pressed self)
                   else pressed self)
                  = pressed self ++ set_minus raw (pressed self)).
    { destruct (set_minus raw (pressed self)); simpl;
        [rewrite app_nil_r|]; reflexivity. }
    rewrite Hp1.
    destruct (nonempty (set_minus (pressed self) raw)) eqn:Hne.
    - apply remove_each_filter.
    - rewrite <- remove_each_filter. 
      destruct (set_minus (pressed self) raw); [reflexivity | discriminate]. }
  rewrite Hrm. reflexivity.
Qed.


(** The scenario of the design's test: from a new instance, the sample
    [[1]] fed twice gives no event the first time and the event set
    [([1], [])] the second time. *)
Example edge_detector_two_samples :
  edge_detect [1%nat] Gamepad_init
  = Some ({| down := [1%nat]; pressed := [] |}, None) /\
  edge_detect [1%nat] {| down := [1%nat]; pressed := [] |}
  = Some ({| down := [1%nat]; pressed := [1%nat] |}, Some ([1%nat], [])).
Proof. split; reflexivity. Qed.

(** ** The button dispatcher *)

Lemma chord_in_spec (chord fresh : list pin) :
  chord_in chord fresh = true <-> forall b, In b chord -> In b fresh.
Proof.
  unfold chord_in. rewrite forallb_forall. split; intros H b Hb.
  - apply pin_in_In, H, Hb.
  - apply pin_in_In, H, Hb.
Qed.

Lemma binding_fires_spec (chord : list pin) (action : Z) (fd fu : list pin) :
  binding_fires chord action fd fu
  = ((action =? DOWN) && chord_in chord fd)
    || ((action =? UP) && chord_in chord fu).
Proof.
  unfold binding_fires.
  destruct ((action =? DOWN) && chord_in chord fd); reflexivity.
Qed.

Lemma binding_fires_press (chord fd fu : list pin) :
  binding_fires chord DOWN fd fu = chord_in chord fd.
Proof.
  unfold binding_fires. change (DOWN =? DOWN) with true.
  change (DOWN =? UP) with false. destruct (chord_in chord fd); reflexivity.
Qed.

Lemma binding_fires_release (chord fd fu : list pin) :
  binding_fires chord UP fd fu = chord_in chord fu.
Proof.
  unfold binding_fires. change (UP =? DOWN) with false.
  change (UP =? UP) with true. destruct (chord_in chord fu); reflexivity.
Qed.

Lemma skipn_nth_error {A : Type} (l : list A) (i : nat) (x : A) :
  nth_error l i = Some x -> skipn i l = x :: skipn (S i) l.
Proof.
  revert i. induction l as [|y l IH]; intros [|i] H; simpl in *;
    try discriminate.
  - inversion H. reflexivity.
  - apply IH, H.
Qed.

Lemma skipn_nth_error_none {A : Type} (l : list A) (i : nat) :
  nth_error l i = None -> skipn i l = [].
Proof.
  intros H. apply skipn_all2, nth_error_None, H.
Qed.

Lemma dispatch_refines_spec (invoke : invoker) :
  (forall fn now w log,
      PRESSES (final_world (invoke fn now w log)) = PRESSES w) ->
  forall (fuel i : nat) (now : time) (fd fu : list pin) (w : World)
         (log : list event),
    (length (PRESSES w) - i < fuel)%nat ->
    dispatch invoke fuel i now fd fu w log
    = dispatch_spec invoke (skipn i (PRESSES w)) now fd fu w log.
Proof.
  intros Hp fuel. induction fuel as [|fuel IH]; intros i now fd fu w log Hf.
  - lia.
  - simpl. destruct (nth_error (PRESSES w) i) as [[[fn chord] action]|] eqn:Hn.
    + rewrite (skipn_nth_error _ _ _ Hn). simpl.
      assert (Hlen : (i < length (PRESSES w))%nat)
        by (apply nth_error_Some; congruence).
      rewrite binding_fires_spec.
      destruct (((action =? DOWN) && chord_in chord fd)
                || ((action =? UP) && chord_in chord fu)).
      * specialize (Hp fn now w (EvButton fn now :: log)).
        destruct (invoke fn now w (EvButton fn now :: log)) as [v w' l'|e w' l'|w' l'];
          try reflexivity.
        simpl in Hp. destruct v; simpl; try reflexivity.
        rewrite IH by (rewrite Hp; lia). rewrite Hp. reflexivity.
      * simpl. apply IH. lia.
    + rewrite (skipn_nth_error_none _ _ Hn). reflexivity.
Qed.

(** C8.  The bindings are kept in [PRESSES] in the order of their
    registration, and for handlers that leave that sequence alone:
    - a binding registered for a press fires exactly when every pin of its
      chord is in [fresh_down], one registered for a release exactly when
      every pin of its chord is in [fresh_up];
    - the loop over [PRESSES] behaves as the dispatcher of the design run on
      the bindings in registration order: a handler that returns anything but
      the sentinel ends the tick, and nothing after it is evaluated;
    - with the bindings [({A,B}, press, h1), ({A}, press, h2)] and both [A]
      and [B] freshly down, [h1] is called first; when it returns anything
      but the sentinel the tick is over and [h2] is not called; when it
      returns the sentinel, [h2], whose chord [{A}] matches too, is called
      next. *)
Theorem button_dispatch_in_order_until_handled :
  forall invoke : invoker,
    (forall fn now w log,
        PRESSES (final_world (invoke fn now w log)) = PRESSES w) ->
    (forall rs, PRESSES (register_all rs) = map binding_of rs) /\
    (forall chord fd fu,
        binding_fires chord (action_code PRESS) fd fu = true <->
        forall b, In b chord -> In b fd) /\
    (forall chord fd fu,
        binding_fires chord (action_code RELEASE) fd fu = true <->
        forall b, In b chord -> In b fu) /\
    (forall fuel now fd fu w log,
        (length (PRESSES w) < fuel)%nat ->
        dispatch invoke fuel 0 now fd fu w log
        = dispatch_spec invoke (PRESSES w) now fd fu w log) /\
    (forall (A B : pin) (h1 h2 : callable) fuel now fu w log,
        PRESSES w = [(h1, [A; B], DOWN); (h2, [A], DOWN)] ->
        (2 < fuel)%nat ->
        dispatch invoke fuel 0 now [A; B] fu w log
        = match invoke h1 now w (EvButton h1 now :: log) with
          | Ok VPropogate w1 log1 =>
              match invoke h2 now w1 (EvButton h2 now :: log1) with
              | Ok _ w2 log2 => Ok VNone w2 log2
              | other => other
              end
          | Ok _ w1 log1 => Ok VNone w1 log1
          | other => other
          end).
Proof.
  intros invoke Hp.
  assert (Hspec : forall fuel now fd fu w log,
    (length (PRESSES w) < fuel)%nat ->
    dispatch invoke fuel 0 now fd fu w log
    = dispatch_spec invoke (PRESSES w) now fd fu w log).
  { intros. rewrite (dispatch_refines_spec invoke Hp) by lia. reflexivity. }
  split; [|split; [|split; [|split]]].
  - intros rs. apply (register_from_PRESSES rs initial).
  - intros chord fd fu. change (action_code PRESS) with DOWN.
    rewrite binding_fires_press. apply chord_in_spec.
  - intros chord fd fu. change (action_code RELEASE) with UP.
    rewrite binding_fires_release. apply chord_in_spec.
  - exact Hspec.
  - intros A B h1 h2 fuel now fu w log Hb Hf.
    rewrite Hspec by (rewrite Hb; simpl; lia). rewrite Hb.
    assert (HA : pin_in A [A; B] = true) by (apply pin_in_In; simpl; auto).
    assert (HB : pin_in B [A; B] = true) by (apply pin_in_In; simpl; auto).
    unfold dispatch_spec, chord_in, forallb. rewrite HA, HB. simpl.
    destruct (invoke h1 now w (EvButton h1 now :: log)) as [v w1 l1| |];
      try reflexivity.
    destruct v; try reflexivity.
    destruct (invoke h2 now w1 (EvButton h2 now :: l1)) as [v w2 l2| |];
      try reflexivity.
    destruct v; reflexivity.
Qed.

Lemma button_dispatch_in_order_witness :
  (forall fn now w log,
      PRESSES (final_world (call propagating_app 0 fn now w log)) = PRESSES w) /\
  dispatch (call propagating_app 0) 3 0 5 [1%nat; 2%nat] [] two_chords []
  = Ok VNone two_chords [EvButton (Fn 2) 5; EvButton (Fn 1) 5].
Proof.
  assert (Hp : forall fn now w log,
    PRESSES (final_world (call propagating_app 0 fn now w log)) = PRESSES w).
  { intros [id|addr] now w log; reflexivity. }
  split; [exact Hp|].
  destruct (button_dispatch_in_order_until_handled
              (call propagating_app 0) Hp) as (_ & _ & _ & _ & H).
  assert (Hfuel : (2 < 3)%nat) by lia.
  exact (H 1%nat 2%nat (Fn 1) (Fn 2) 3%nat 5 [] two_chords [] eq_refl Hfuel).
Defined.

(** ** Dictionaries *)

Lemma dict_items_In {V : Type} (d : Dict.t V) (k : callable) (v : V) :
  In (k, v) (Dict.items d) <-> In (Some (k, v)) d.
Proof.
  induction d as [|[kv|] d IH]; simpl.
  - tauto.
  - rewrite IH. split; intros [H|H]; auto; left; congruence.
  - rewrite IH. split; [auto|]. intros [H|H]; [discriminate | exact H].
Qed.

Lemma dict_mem_In {V : Type} (d : Dict.t V) (k : callable) :
  Dict.mem k d = true <-> exists v, In (k, v) (Dict.items d).
Proof.
  unfold Dict.mem. rewrite existsb_exists. split.
  - intros ([[k' v]|] & Hin & Hk); simpl in Hk; [|discriminate].
    apply callable_eqb_eq in Hk. subst. exists v. apply dict_items_In, Hin.
  - intros (v & Hin). exists (Some (k, v)). split.
    + apply dict_items_In, Hin.
    + simpl. apply callable_eqb_refl.
Qed.

Lemma dict_is_key_other {V : Type} (k k' : callable) (v : V) :
  k' <> k -> Dict.is_key k (Some (k', v)) = false.
Proof. intros H. simpl. apply callable_eqb_neq, H. Qed.

Lemma dict_del_mem {V : Type} (d d' : Dict.t V) (k : callable) :
  Dict.del k d = Some d' -> Dict.mem k d' = false.
Proof.
  unfold Dict.del. destruct (Dict.mem k d); [|discriminate].
  intros H. inversion H; subst. clear H. unfold Dict.mem.
  induction d as [|e d IH]; simpl; [reflexivity|].
  rewrite IH, orb_false_r. destruct (Dict.is_key k e) eqn:He; [reflexivity|].
  exact He.
Qed.

Lemma dict_del_items_other {V : Type} (d d' : Dict.t V) (k k' : callable)
    (v : V) :
  Dict.del k d = Some d' -> k' <> k ->
  (In (k', v) (Dict.items d') <-> In (k', v) (Dict.items d)).
Proof.
  unfold Dict.del. destruct (Dict.mem k d); [|discriminate].
  intros H Hne. inversion H; subst. clear H. rewrite !dict_items_In.
  rewrite in_map_iff. split.
  - intros (e & He & Hin). destruct (Dict.is_key k e); [discriminate|].
    subst. exact Hin.
  - intros Hin. exists (Some (k', v)). split; [|exact Hin].
    rewrite dict_is_key_other by exact Hne. reflexivity.
Qed.

Lemma dict_del_mem_other {V : Type} (d d' : Dict.t V) (k k' : callable) :
  Dict.del k d = Some d' -> k' <> k -> Dict.mem k' d' = Dict.mem k' d.
Proof.
  intros Hd Hne.
  destruct (Dict.mem k' d) eqn:Hm.
  - apply dict_mem_In in Hm. destruct Hm as (v & Hv).
    apply dict_mem_In. exists v.
    apply (dict_del_items_other d d' k k' v Hd Hne), Hv.
  - destruct (Dict.mem k' d') eqn:Hm'; [|reflexivity].
    apply dict_mem_In in Hm'. destruct Hm' as (v & Hv).
    apply (dict_del_items_other d d' k k' v Hd Hne) in Hv.
    assert (Dict.mem k' d = true) by (apply dict_mem_In; eauto). congruence.
Qed.

Lemma dict_del_len {V : Type} (d d' : Dict.t V) (k : callable) :
  Dict.del k d = Some d' -> (Dict.len d' < Dict.len d)%nat.
Proof.
  unfold Dict.del. destruct (Dict.mem k d) eqn:Hm; [|discriminate].
  intros H. inversion H; subst. clear H. unfold Dict.len, Dict.mem in *.
  induction d as [|e d IH]; simpl in *; [discriminate|].
  assert (Hle : (length (Dict.items
                   (map (fun e0 => if Dict.is_key k e0 then None else e0) d))
                 <= length (Dict.items d))%nat).
  { clear. induction d as [|e d IH]; simpl; [lia|].
    destruct (Dict.is_key k e); destruct e; simpl; lia. }
  destruct (Dict.is_key k e) eqn:He.
  - destruct e as [kv|]; [simpl; lia | discriminate].
  - simpl in Hm. destruct e as [kv|]; simpl; [apply -> Nat.succ_lt_mono|];
      apply IH, Hm.
Qed.

Lemma dict_set_items_same {V : Type} (d : Dict.t V) (k : callable) (v v' : V) :
  In (k, v') (Dict.items (Dict.set k v d)) -> v' = v.
Proof.
  unfold Dict.set. destruct (Dict.mem k d) eqn:Hm.
  - rewrite dict_items_In, in_map_iff. intros (e & He & Hin).
    destruct (Dict.is_key k e) eqn:Hk.
    + congruence.
    + subst e. simpl in Hk. rewrite callable_eqb_refl in Hk. discriminate.
  - rewrite dict_items_In, in_app_iff. intros [Hin|[Heq|[]]].
    + assert (Dict.mem k d = true).
      { apply dict_mem_In. exists v'. apply dict_items_In, Hin. }
      congruence.
    + congruence.
Qed.

Lemma dict_set_items_other {V : Type} (d : Dict.t V) (k k' : callable)
    (v v' : V) :
  k' <> k ->
  (In (k', v') (Dict.items (Dict.set k v d)) <-> In (k', v') (Dict.items d)).
Proof.
  intros Hne. unfold Dict.set. destruct (Dict.mem k d).
  - rewrite !dict_items_In, in_map_iff. split.
    + intros (e & He & Hin). destruct (Dict.is_key k e); [congruence|].
      subst. exact Hin.
    + intros Hin. exists (Some (k', v')). split; [|exact Hin].
      rewrite dict_is_key_other by exact Hne. reflexivity.
  - rewrite !dict_items_In, in_app_iff. split; [|auto].
    intros [H|[H|[]]]; [exact H | congruence].
Qed.

Lemma dict_set_mem {V : Type} (d : Dict.t V) (k : callable) (v : V) :
  Dict.mem k (Dict.set k v d) = true.
Proof.
  unfold Dict.set. destruct (Dict.mem k d) eqn:Hm.
  - unfold Dict.mem in *. rewrite existsb_exists in *.
    destruct Hm as (e & Hin & Hk).
    exists (Some (k, v)). split; [|simpl; apply callable_eqb_refl].
    apply in_map_iff. exists e. rewrite Hk. auto.
  - unfold Dict.mem. rewrite existsb_app. simpl.
    rewrite callable_eqb_refl. apply orb_true_r.
Qed.

Lemma dict_get_In {V : Type} (d : Dict.t V) (k : callable) (v : V) :
  Dict.mem k d = true ->
  (forall v', In (k, v') (Dict.items d) -> v' = v) ->
  Dict.get k d = Some v.
Proof.
  intros Hm Hall. unfold Dict.get.
  destruct (find (fun kv => callable_eqb (fst kv) k) (Dict.items d))
    as [[k' v']|] eqn:Hf.
  - apply find_some in Hf. destruct Hf as (Hin & Hk). simpl in Hk.
    apply callable_eqb_eq in Hk. subst. simpl. f_equal. apply Hall, Hin.
  - apply dict_mem_In in Hm. destruct Hm as (v0 & Hin).
    apply (find_none _ _ Hf) in Hin. simpl in Hin.
    rewrite callable_eqb_refl in Hin. discriminate.
Qed.

Lemma dict_get_set {V : Type} (d : Dict.t V) (k : callable) (v : V) :
  Dict.get k (Dict.set k v d) = Some v.
Proof.
  apply dict_get_In; [apply dict_set_mem|].
  intros v'. apply dict_set_items_same.
Qed.

Lemma dict_first_live_In {V : Type} (es : Dict.t V) (k : callable) (v : V)
    (n : nat) :
  Dict.first_live es = Some (k, v, n) -> In (Some (k, v)) es.
Proof.
  revert n. induction es as [|[[k' v']|] es IH]; intros n H; simpl in *.
  - discriminate.
  - inversion H; subst. auto.
  - destruct (Dict.first_live es) as [[[k'' v''] m]|]; [|discriminate].
    inversion H; subst. right. apply (IH m). reflexivity.
Qed.

Lemma dict_next_yield {V : Type} (d : Dict.t V) (it it' : Dict.iter)
    (k : callable) (v : V) :
  Dict.next d it = Dict.Yield k v it' ->
  In (k, v) (Dict.items d) /\ Dict.len d = Dict.di_used it /\
  Dict.di_used it' = Dict.di_used it.
Proof.
  unfold Dict.next. destruct (Nat.eqb (Dict.len d) (Dict.di_used it)) eqn:Hl;
    [|discriminate].
  destruct (Dict.first_live (skipn (Dict.di_pos it) d)) as [[[k' v'] n]|] eqn:Hf;
    [|discriminate].
  destruct (Dict.di_len it) as [|expected]; [discriminate|].
  intros H. inversion H; subst. simpl. apply Nat.eqb_eq in Hl.
  split; [|auto]. apply dict_items_In. apply dict_first_live_In in Hf.
  rewrite <- (firstn_skipn (Dict.di_pos it) d). apply in_or_app. auto.
Qed.

Lemma dict_next_changed {V : Type} (d : Dict.t V) (it : Dict.iter) :
  Dict.len d <> Dict.di_used it -> Dict.next d it = Dict.Changed.
Proof.
  intros H. unfold Dict.next. apply Nat.eqb_neq in H. rewrite H. reflexivity.
Qed.

(** ** What a call can change

    Whatever relation [P] between worlds the callback bodies respect, every
    call [fn(now)], of a function or of a [Gamepad] instance, respects it as
    well, as long as [P] ignores the poll counter and the attributes of the
    instances; and a call adds only dispatcher calls to the log. *)
Section CallFrame.

Variable E : Env.
Variable P : World -> World -> Prop.
Hypothesis P_refl : forall w, P w w.
Hypothesis P_trans : forall a b c, P a b -> P b c -> P a c.
Hypothesis P_body : forall id now w, P w (hres_world (body E id now w)).
Hypothesis P_polled : forall w, P w (polled w).
Hypothesis P_write_back : forall addr gp w, P w (write_back addr gp w).

Lemma framed_here (w : World) (log : list event) (o : outcome) :
  final_world o = w -> final_log o = log -> framed P w log o.
Proof.
  intros Hw Hl. split; [rewrite Hw; apply P_refl|].
  exists []. split; [exact Hl | constructor].
Qed.

Lemma framed_pre (w w0 : World) (log : list event) (o : outcome) :
  P w w0 -> framed P w0 log o -> framed P w log o.
Proof.
  intros Hp (Hq & l & Hl & Hb). split; [eapply P_trans; eassumption|].
  exists l. auto.
Qed.

Lemma framed_button (w : World) (log : list event) (fn : callable) (now : time)
    (o : outcome) :
  framed P w (EvButton fn now :: log) o -> framed P w log o.
Proof.
  intros (Hq & l & Hl & Hb). split; [exact Hq|].
  exists (l ++ [EvButton fn now]). split.
  - rewrite Hl, <- app_assoc. reflexivity.
  - apply Forall_app. split; [exact Hb | repeat constructor].
Qed.

Lemma framed_seq (w w' : World) (log log' : list event) (v : pyval)
    (o : outcome) :
  framed P w log (Ok v w' log') -> framed P w' log' o -> framed P w log o.
Proof.
  intros (Hq & l & Hl & Hb) (Hq' & l' & Hl' & Hb'). simpl in *. split.
  - eapply P_trans; eassumption.
  - exists (l' ++ l). split.
    + rewrite Hl', Hl, app_assoc. reflexivity.
    + apply Forall_app. auto.
Qed.

Lemma dispatch_framed (invoke : invoker) :
  (forall fn now w log, framed P w log (invoke fn now w log)) ->
  forall fuel i now fd fu w log,
    framed P w log (dispatch invoke fuel i now fd fu w log).
Proof.
  intros Hinv fuel. induction fuel as [|fuel IH]; intros i now fd fu w log.
  - apply framed_here; reflexivity.
  - simpl. destruct (nth_error (PRESSES w) i) as [[[fn chord] action]|].
    + destruct (binding_fires chord action fd fu).
      * pose proof (Hinv fn now w (EvButton fn now :: log)) as H.
        apply framed_button in H.
        destruct (invoke fn now w (EvButton fn now :: log))
          as [v w' log'|e w' log'|w' log']; try exact H.
        destruct (is_PROPOGATE v).
        -- eapply framed_seq; [exact H | apply IH].
        -- exact H.
      * simpl. apply IH.
    + apply framed_here; reflexivity.
Qed.

Lemma Gamepad_call_framed (invoke : invoker) :
  (forall fn now w log, framed P w log (invoke fn now w log)) ->
  forall fuel addr now w log,
    framed P w log (Gamepad_call E invoke fuel addr now w log).
Proof.
  intros Hinv fuel addr now w log. unfold Gamepad_call.
  destruct (nth_error (heap w) addr) as [gp|];
    [|apply framed_here; reflexivity].
  destruct (edge_detect (read_pins E w) gp) as [[gp' [[fd fu]|]]|].
  - apply (framed_pre w (write_back addr gp' (polled w))).
    + eapply P_trans; [apply P_polled | apply P_write_back].
    + apply dispatch_framed, Hinv.
  - apply (framed_pre w (write_back addr gp' (polled w))).
    + eapply P_trans; [apply P_polled | apply P_write_back].
    + apply framed_here; reflexivity.
  - apply (framed_pre w (polled w)); [apply P_polled|].
    apply framed_here; reflexivity.
Qed.

Lemma call_framed (fuel : nat) (fn : callable) (now : time) (w : World)
    (log : list event) :
  framed P w log (call E fuel fn now w log).
Proof.
  revert fn now w log. induction fuel as [|fuel IH]; intros [id|addr] now w log;
    simpl.
  - pose proof (P_body id now w) as H.
    destruct (body E id now w); simpl in *;
      (split; [exact H | exists []; split; [reflexivity | constructor]]).
  - apply framed_here; reflexivity.
  - pose proof (P_body id now w) as H.
    destruct (body E id now w); simpl in *;
      (split; [exact H | exists []; split; [reflexivity | constructor]]).
  - apply Gamepad_call_framed. exact IH.
Qed.

End CallFrame.

(** ** Invariants of the main loop

    [I] holds between the steps of the loop and [Q] is what is wanted of the
    world and the log wherever the run stops.  [I] has to survive a reading
    of the clock and a sleep, and the two places where the loop calls into
    the application: a due periodic task, called and then stamped with [now],
    and a due timer, removed and then called. *)
Section LoopInvariant.

Variable E : Env.
Variables I Q : World -> list event -> Prop.
Hypothesis I_Q : forall w log, I w log -> Q w log.
Hypothesis I_clock :
  forall w log n, I w log -> I (set_clock_reads n w) log.
Hypothesis I_sleep : forall w log d, I w log -> I w (EvSleep d :: log).
Hypothesis Q_print : forall w log, I w log -> Q w (EvPrint quitting :: log).
Hypothesis I_periodic :
  forall fuel fn interval last now w log,
    I w log ->
    In (fn, (interval, last)) (Dict.items (INTERVALS w)) ->
    last + interval <= now ->
    match call E fuel fn now w (EvPeriodic fn now interval last :: log) with
    | Ok _ w' log' =>
        I (set_INTERVALS (Dict.set fn (interval, now) (INTERVALS w')) w') log'
    | Raise _ w' log' | OutOfFuel w' log' => Q w' log'
    end.
Hypothesis I_timer :
  forall fuel fn target now w log d,
    I w log ->
    In (fn, target) (Dict.items (TIMERS w)) ->
    target <= now ->
    Dict.del fn (TIMERS w) = Some d ->
    ends_well I Q (call E fuel fn now (set_TIMERS d w)
                        (EvTimer fn now target d :: log)).

Lemma intervals_loop_ends_well (fuel : nat) (it : Dict.iter) (now : time)
    (w : World) (log : list event) :
  I w log -> ends_well I Q (intervals_loop E fuel it now w log).
Proof.
  revert it w log. induction fuel as [|fuel IH]; intros it w log Hi; simpl.
  - apply I_Q, Hi.
  - destruct (Dict.next (INTERVALS w) it) as [fn [interval last] it'| |] eqn:Hn.
    + apply dict_next_yield in Hn. destruct Hn as (Hin & _).
      destruct (last + interval <=? now) eqn:Hdue.
      * apply Z.leb_le in Hdue.
        pose proof (I_periodic fuel fn interval last now w log Hi Hin Hdue) as H.
        destruct (call E fuel fn now w (EvPeriodic fn now interval last :: log))
          as [v w' log'|e w' log'|w' log']; simpl; try exact H.
        apply IH, H.
      * apply IH, Hi.
    + exact Hi.
    + apply I_Q, Hi.
Qed.

Lemma timers_loop_ends_well (fuel : nat) (it : Dict.iter) (now : time)
    (w : World) (log : list event) :
  I w log -> ends_well I Q (timers_loop E fuel it now w log).
Proof.
  revert it w log. induction fuel as [|fuel IH]; intros it w log Hi; simpl.
  - apply I_Q, Hi.
  - destruct (Dict.next (TIMERS w) it) as [fn target it'| |] eqn:Hn.
    + apply dict_next_yield in Hn. destruct Hn as (Hin & _).
      destruct (target <=? now) eqn:Hdue.
      * apply Z.leb_le in Hdue.
        destruct (Dict.del fn (TIMERS w)) as [d|] eqn:Hd;
          [|simpl; apply I_Q, Hi].
        pose proof (I_timer fuel fn target now w log d Hi Hin Hdue Hd) as H.
        destruct (call E fuel fn now (set_TIMERS d w)
                       (EvTimer fn now target d :: log))
          as [v w' log'|e w' log'|w' log']; simpl in *; try exact H.
        apply IH, H.
      * apply IH, Hi.
    + exact Hi.
    + apply I_Q, Hi.
Qed.

Lemma park_ends_well (fuel : nat) (target : time) (w : World)
    (log : list event) :
  I w log -> ends_well I Q (park E fuel target w log).
Proof.
  revert w log. induction fuel as [|fuel IH]; intros w log Hi; simpl.
  - apply I_Q, Hi.
  - destruct (0 <? target - monotonic E (clock_reads w)).
    + apply IH, I_sleep, I_clock, Hi.
    + simpl. apply I_clock, Hi.
Qed.

Lemma main_loop_invariant (fuel : nat) (w : World) (log : list event) :
  I w log ->
  Q (final_world (main_loop E fuel w log)) (final_log (main_loop E fuel w log)).
Proof.
  revert w log. induction fuel as [|fuel IH]; intros w log Hi; simpl.
  - apply I_Q, Hi.
  - destruct ((Dict.len (TIMERS w) =? 0)%nat && (Dict.len (INTERVALS w) =? 0)%nat).
    + simpl. apply Q_print, Hi.
    + pose proof (intervals_loop_ends_well fuel
        (Dict.iter_new (INTERVALS (set_clock_reads (S (clock_reads w)) w)))
        (monotonic E (clock_reads w))
        (set_clock_reads (S (clock_reads w)) w) log
        (I_clock w log _ Hi)) as H1.
      destruct (intervals_loop E fuel _ _ _ log) as [v2 w2 log2| |];
        simpl in *; try exact H1.
      pose proof (timers_loop_ends_well fuel (Dict.iter_new (TIMERS w2))
        (monotonic E (clock_reads w)) w2 log2 H1) as H2.
      destruct (timers_loop E fuel _ _ w2 log2) as [v3 w3 log3| |];
        simpl in *; try exact H2.
      destruct (next_target w3) as [target|]; [|simpl; apply I_Q, H2].
      pose proof (park_ends_well fuel target w3 log3 H2) as H3.
      destruct (park E fuel target w3 log3) as [v4 w4 log4| |];
        simpl in *; try exact H3.
      apply IH, H3.
Qed.

End LoopInvariant.

(** ** What the log of a run holds *)


Lemma timer_fires_buttons (fn : callable) (l log : list event) :
  Forall is_button l -> timer_fires fn (l ++ log) = timer_fires fn log.
Proof.
  induction 1 as [|ev l Hev _ IH]; simpl; [reflexivity|].
  destruct ev; simpl in Hev; try contradiction. exact IH.
Qed.

Lemma any_call_framed (E : Env) (fuel : nat) (fn : callable) (now : time)
    (w : World) (log : list event) :
  exists l, final_log (call E fuel fn now w log) = l ++ log /\
            Forall is_button l.
Proof.
  destruct (call_framed E (fun _ _ => True)) with (fuel := fuel) (fn := fn)
    (now := now) (w := w) (log := log) as (_ & H); auto.
Qed.

(** A property of events that holds of dispatcher calls, sleeps and the
    final print, of calls of periodic tasks that were due, and of calls of
    timers that were due and removed, holds of every event of a run. *)
Lemma main_loop_log_Forall (X : event -> Prop) (E : Env) :
  (forall ev, is_button ev -> X ev) ->
  (forall d, X (EvSleep d)) ->
  X (EvPrint quitting) ->
  (forall fn now interval last,
      last + interval <= now -> X (EvPeriodic fn now interval last)) ->
  (forall fn now target d,
      target <= now -> Dict.mem fn d = false -> X (EvTimer fn now target d)) ->
  forall fuel w log,
    Forall X log -> Forall X (final_log (main_loop E fuel w log)).
Proof.
  intros Hb Hs Hp Hper Htim fuel w log HX.
  assert (Hcall : forall f fn now w0 log0,
    Forall X log0 -> Forall X (final_log (call E f fn now w0 log0))).
  { intros f fn now w0 log0 H0.
    destruct (any_call_framed E f fn now w0 log0) as (l & Hl & Hbt).
    rewrite Hl. apply Forall_app. split; [|exact H0].
    eapply Forall_impl; [|exact Hbt]. exact Hb. }
  apply (main_loop_invariant E (fun _ l => Forall X l) (fun _ l => Forall X l));
    auto.
  - intros f fn interval last now w0 log0 H0 _ Hdue.
    pose proof (Hcall f fn now w0 (EvPeriodic fn now interval last :: log0)) as H.
    destruct (call E f fn now w0 (EvPeriodic fn now interval last :: log0));
      simpl in H; apply H; constructor; auto.
  - intros f fn target now w0 log0 d H0 _ Hdue Hd.
    pose proof (Hcall f fn now (set_TIMERS d w0)
                      (EvTimer fn now target d :: log0)) as H.
    apply dict_del_mem in Hd.
    destruct (call E f fn now (set_TIMERS d w0) (EvTimer fn now target d :: log0));
      simpl in *; apply H; constructor; auto.
Qed.

(** ** One-shot timers *)

Lemma timer_fires_bounded (E : Env) (fn : callable) :
  (forall id now w,
      Dict.mem fn (TIMERS w) = false ->
      Dict.mem fn (TIMERS (hres_world (body E id now w))) = false) ->
  forall fuel w log,
    (timer_fires fn log + (if Dict.mem fn (TIMERS w) then 1 else 0) <= 1)%nat ->
    (timer_fires fn (final_log (main_loop E fuel w log)) <= 1)%nat.
Proof.
  intros Hbody fuel w log H0.
  set (P := fun w w' : World =>
              Dict.mem fn (TIMERS w) = false -> Dict.mem fn (TIMERS w') = false).
  set (I := fun (w : World) (log : list event) =>
              (timer_fires fn log
               + (if Dict.mem fn (TIMERS w) then 1 else 0) <= 1)%nat).
  assert (Hcall : forall f g now w0 log0,
    framed P w0 log0 (call E f g now w0 log0)).
  { intros. apply call_framed; unfold P; auto. }
  assert (Hstep : forall f g now w0 log0 ev,
    timer_fires fn (ev :: log0) = timer_fires fn log0 ->
    I w0 log0 ->
    I (final_world (call E f g now w0 (ev :: log0)))
      (final_log (call E f g now w0 (ev :: log0)))).
  { intros f g now w0 log0 ev Hev Hi.
    destruct (Hcall f g now w0 (ev :: log0)) as (Hp & l & Hl & Hbt).
    unfold I in *. rewrite Hl, timer_fires_buttons, Hev by exact Hbt.
    unfold P in Hp. destruct (Dict.mem fn (TIMERS w0)).
    - destruct (Dict.mem fn (TIMERS (final_world _))); lia.
    - rewrite Hp by reflexivity. exact Hi. }
  enough (Hq : I (final_world (main_loop E fuel w log))
                 (final_log (main_loop E fuel w log))).
  { unfold I in Hq. lia. }
  apply (main_loop_invariant E I I); auto.
  - intros f g interval last now w0 log0 Hi _ _.
    pose proof (Hstep f g now w0 log0 (EvPeriodic g now interval last)
                      eq_refl Hi) as H.
    destruct (call E f g now w0 (EvPeriodic g now interval last :: log0));
      exact H.
  - intros f g target now w0 log0 d Hi Hin _ Hd.
    assert (Hmem : Dict.mem g (TIMERS w0) = true)
      by (apply dict_mem_In; eauto).
    destruct (callable_eqb g fn) eqn:Hg.
    + apply callable_eqb_eq in Hg. subst g.
      destruct (Hcall f fn now (set_TIMERS d w0)
                      (EvTimer fn now target d :: log0)) as (Hp & l & Hl & Hbt).
      assert (Hgone : Dict.mem fn (TIMERS (final_world
                (call E f fn now (set_TIMERS d w0)
                      (EvTimer fn now target d :: log0)))) = false).
      { apply Hp. simpl. apply (dict_del_mem _ _ _ Hd). }
      assert (Hi' : I (final_world (call E f fn now (set_TIMERS d w0)
                                         (EvTimer fn now target d :: log0)))
                      (final_log (call E f fn now (set_TIMERS d w0)
                                       (EvTimer fn now target d :: log0)))).
      { unfold I in *. rewrite Hgone, Hl, timer_fires_buttons by exact Hbt.
        simpl. rewrite callable_eqb_refl. rewrite Hmem in Hi. lia. }
      destruct (call E f fn now (set_TIMERS d w0)
                     (EvTimer fn now target d :: log0)); exact Hi'.
    + assert (Hi' : I (set_TIMERS d w0) log0).
      { unfold I in *. simpl.
        rewrite (dict_del_mem_other _ _ _ _ Hd)
          by (intros Heq; subst; rewrite callable_eqb_refl in Hg; discriminate).
        exact Hi. }
      assert (Hev : timer_fires fn (EvTimer g now target d :: log0)
                    = timer_fires fn log0) by (simpl; rewrite Hg; reflexivity).
      pose proof (Hstep f g now (set_TIMERS d w0) log0 _ Hev Hi') as H.
      destruct (call E f g now (set_TIMERS d w0)
                     (EvTimer g now target d :: log0)); exact H.
Qed.

(** C3.  In any run of [start], from any world and with any callbacks:
    - every call the loop makes to a one-shot timer is made with a sampled
      time [now] at or after the timer's deadline, on a timer table from
      which the timer's own entry has already been deleted;
    - the step of the loop that finds a due timer deletes it and only then
      calls the handler, which is entered in the world without the entry, so
      that a handler registering itself again writes a new entry;
    - a timer that no callback registers again is called at most once in the
      whole run. *)
Theorem one_shot_timer_fires_once_when_due :
  forall (E : Env) (fuel : nat) (w : World) (fn : callable),
    (forall id now w',
        Dict.mem fn (TIMERS w') = false ->
        Dict.mem fn (TIMERS (hres_world (body E id now w'))) = false) ->
    Forall timer_due_and_removed (final_log (start E fuel w [])) /\
    (forall f it now w' log g target it',
        Dict.next (TIMERS w') it = Dict.Yield g target it' ->
        (now < target ->
         timers_loop E (S f) it now w' log = timers_loop E f it' now w' log) /\
        (target <= now ->
         exists d,
           Dict.del g (TIMERS w') = Some d /\
           Dict.mem g d = false /\
           (forall t, Dict.get g (TIMERS (at_ t g (set_TIMERS d w'))) = Some t) /\
           timers_loop E (S f) it now w' log
           = match call E f g now (set_TIMERS d w')
                        (EvTimer g now target d :: log) with
             | Ok _ w'' log' => timers_loop E f it' now w'' log'
             | other => other
             end)) /\
    (timer_fires fn (final_log (start E fuel w [])) <= 1)%nat.
Proof.
  intros E fuel w fn Hbody. split; [|split].
  - unfold start. apply main_loop_log_Forall; simpl; auto.
    intros []; simpl; tauto.
  - intros f it now w' log g target it' Hn. split.
    + intros Hlt. simpl. rewrite Hn.
      apply Z.leb_gt in Hlt. rewrite Hlt. reflexivity.
    + intros Hdue. pose proof (dict_next_yield _ _ _ _ _ Hn) as (Hin & _).
      assert (Hmem : Dict.mem g (TIMERS w') = true)
        by (apply dict_mem_In; eauto).
      assert (Hd : exists d, Dict.del g (TIMERS w') = Some d).
      { unfold Dict.del. rewrite Hmem. eauto. }
      destruct Hd as (d & Hd). exists d. split; [exact Hd|].
      split; [apply (dict_del_mem _ _ _ Hd)|]. split.
      * intros t. apply dict_get_set.
      * simpl. rewrite Hn, Hd. apply Z.leb_le in Hdue. rewrite Hdue.
        reflexivity.
  - unfold start. apply timer_fires_bounded; [exact Hbody|].
    simpl. destruct (Dict.mem fn (TIMERS (start_setup w))); lia.
Qed.

Lemma one_shot_timer_fires_once_witness :
  (forall id now w',
      Dict.mem (Fn 0) (TIMERS w') = false ->
      Dict.mem (Fn 0) (TIMERS (hres_world (body idle_app id now w'))) = false) /\
  timer_fires (Fn 0) (final_log (start idle_app 5 one_timer [])) = 1%nat /\
  (timer_fires (Fn 0) (final_log (start idle_app 5 one_timer [])) <= 1)%nat.
Proof.
  split; [intros id now w' H; exact H|]. split; [reflexivity|].
  apply (one_shot_timer_fires_once_when_due idle_app 5 one_timer (Fn 0)).
  intros id now w' H. exact H.
Defined.

(** ** Periodic tasks *)





(** ** Deleting from the timer table while iterating over it *)

Lemma skipn_tail {A : Type} (p : nat) (l tl : list A) (x : A) :
  skipn p l = x :: tl -> skipn (S p) l = tl.
Proof.
  intros H. change (S p) with (1 + p)%nat.
  rewrite <- skipn_skipn, H. reflexivity.
Qed.

Lemma dict_next_skips_hole {V : Type} (d tl : Dict.t V)
    (used pos expected : nat) :
  skipn pos d = None :: tl ->
  Dict.next d {| Dict.di_used := used; Dict.di_pos := pos;
                 Dict.di_len := expected |}
  = Dict.next d {| Dict.di_used := used; Dict.di_pos := S pos;
                   Dict.di_len := expected |}.
Proof.
  intros H. unfold Dict.next. cbn [Dict.di_pos Dict.di_used Dict.di_len].
  rewrite (skipn_tail _ _ _ _ H), H. cbn [Dict.first_live].
  destruct (Nat.eqb (Dict.len d) used); [|reflexivity].
  destruct (Dict.first_live tl) as [[[k v] n]|]; [|reflexivity].
  destruct expected; [reflexivity|].
  rewrite Nat.add_succ_r. reflexivity.
Qed.

Lemma dict_next_live {V : Type} (d tl : Dict.t V) (used pos expected : nat)
    (k : callable) (v : V) :
  skipn pos d = Some (k, v) :: tl ->
  Dict.len d = used ->
  Dict.next d {| Dict.di_used := used; Dict.di_pos := pos;
                 Dict.di_len := S expected |}
  = Dict.Yield k v {| Dict.di_used := used; Dict.di_pos := S pos;
                      Dict.di_len := expected |}.
Proof.
  intros H Hl. unfold Dict.next. cbn [Dict.di_pos Dict.di_used Dict.di_len].
  rewrite H. cbn [Dict.first_live].
  apply Nat.eqb_eq in Hl. rewrite Hl, Nat.add_1_r. reflexivity.
Qed.

Lemma dict_len_app {V : Type} (a b : Dict.t V) :
  Dict.len (a ++ b) = (Dict.len a + Dict.len b)%nat.
Proof.
  unfold Dict.len. induction a as [|[kv|] a IH]; simpl; auto.
Qed.

Lemma timers_loop_same_next (E : Env) (fuel : nat) (it it1 : Dict.iter)
    (now : time) (w : World) (log : list event) :
  Dict.next (TIMERS w) it = Dict.next (TIMERS w) it1 ->
  timers_loop E fuel it now w log = timers_loop E fuel it1 now w log.
Proof.
  intros H. destruct fuel as [|fuel]; simpl; [reflexivity|].
  rewrite H. reflexivity.
Qed.

(** From any position of the iterator: the entries up to the first due
    timer are passed by, the due timer is deleted and called, and the next
    step of the iterator finds a table of another size. *)
Lemma timers_loop_raises_after_delete (E : Env) (f : nat) (now : time)
    (w w' : World) (log log' : list event) (rest : Dict.t time)
    (fn : callable) (target : time) (d : Dict.t time) (v : pyval) :
  target <= now ->
  Dict.del fn (TIMERS w) = Some d ->
  call E (S f) fn now (set_TIMERS d w) (EvTimer fn now target d :: log)
  = Ok v w' log' ->
  Dict.len (TIMERS w') <> Dict.len (TIMERS w) ->
  forall (pre : Dict.t time) (pos expected : nat),
    skipn pos (TIMERS w) = pre ++ Some (fn, target) :: rest ->
    (forall g t, In (g, t) (Dict.items pre) -> now < t) ->
    timers_loop E (Dict.len pre + S (S f))
      {| Dict.di_used := Dict.len (TIMERS w); Dict.di_pos := pos;
         Dict.di_len := Dict.len pre + S expected |} now w log
    = Raise RuntimeError w' log'.
Proof.
  intros Hdue Hd Hc Hlen pre.
  induction pre as [|[[g t]|] pre IH]; intros pos expected Hs Hpre.
  - simpl in Hs. change (Dict.len [] + S (S f))%nat with (S (S f)).
    change (Dict.len [] + S expected)%nat with (S expected).
    cbn [timers_loop]. rewrite (dict_next_live _ _ _ _ _ _ _ Hs eq_refl).
    apply Z.leb_le in Hdue. rewrite Hdue, Hd, Hc.
    cbn [timers_loop]. rewrite dict_next_changed by exact Hlen. reflexivity.
  - simpl in Hs.
    change (Dict.len (Some (g, t) :: pre) + S (S f))%nat
      with (S (Dict.len pre + S (S f))).
    change (Dict.len (Some (g, t) :: pre) + S expected)%nat
      with (S (Dict.len pre + S expected)).
    cbn [timers_loop]. rewrite (dict_next_live _ _ _ _ _ _ _ Hs eq_refl).
    assert (Hlt : now < t) by (apply (Hpre g t); simpl; auto).
    apply Z.leb_gt in Hlt. rewrite Hlt.
    apply IH; [apply (skipn_tail _ _ _ _ Hs)|].
    intros g' t' Hin. apply (Hpre g' t'). simpl. auto.
  - simpl in Hs.
    change (Dict.len (None :: pre) + S (S f))%nat
      with (Dict.len pre + S (S f))%nat.
    change (Dict.len (None :: pre) + S expected)%nat
      with (Dict.len pre + S expected)%nat.
    rewrite (timers_loop_same_next E _ _
               {| Dict.di_used := Dict.len (TIMERS w); Dict.di_pos := S pos;
                  Dict.di_len := Dict.len pre + S expected |}).
    + apply IH; [apply (skipn_tail _ _ _ _ Hs)|].
      intros g' t' Hin. apply (Hpre g' t'). exact Hin.
    + apply (dict_next_skips_hole _ _ _ _ _ Hs).
Qed.

(** C4 (as the code has it).  Take a cycle whose timer table holds a due
    timer, and let [fn] be the first one, after timers [pre] that are not
    due.  The loop over [TIMERS] deletes the entry of [fn] from the table it
    is iterating over and calls [fn].  When that call returns and leaves a
    table whose number of entries differs from the number at the start of
    the loop (always so when the handler leaves the table as it found it),
    the next step of the iterator raises [RuntimeError]: the loop over the
    timers ends there, after the call of [fn], and the cycle ends with that
    error before the next wake time is computed. *)
Theorem due_timer_deleted_during_iteration :
  forall (E : Env) (f : nat) (now : time) (w w' : World)
         (log log' : list event) (pre rest : Dict.t time) (fn : callable)
         (target : time) (d : Dict.t time) (v : pyval),
    TIMERS w = pre ++ Some (fn, target) :: rest ->
    (forall g t, In (g, t) (Dict.items pre) -> now < t) ->
    target <= now ->
    Dict.del fn (TIMERS w) = Some d ->
    call E (S f) fn now (set_TIMERS d w) (EvTimer fn now target d :: log)
    = Ok v w' log' ->
    Dict.len (TIMERS w') <> Dict.len (TIMERS w) ->
    timers_loop E (Dict.len pre + S (S f)) (Dict.iter_new (TIMERS w)) now w log
    = Raise RuntimeError w' log' /\
    (exists l, log' = l ++ EvTimer fn now target d :: log) /\
    (Dict.len d < Dict.len (TIMERS w))%nat /\
    (forall w0 log0 v0,
        (Dict.len (TIMERS w0) =? 0)%nat && (Dict.len (INTERVALS w0) =? 0)%nat
        = false ->
        now = fst (time_monotonic E w0) ->
        intervals_loop E (Dict.len pre + S (S f))
          (Dict.iter_new (INTERVALS (snd (time_monotonic E w0))))
          now (snd (time_monotonic E w0)) log0
        = Ok v0 w log ->
        main_loop E (S (Dict.len pre + S (S f))) w0 log0
        = Raise RuntimeError w' log').
Proof.
  intros E f now w w' log log' pre rest fn target d v Ht Hpre Hdue Hd Hc Hlen.
  assert (Hloop :
    timers_loop E (Dict.len pre + S (S f)) (Dict.iter_new (TIMERS w)) now w log
    = Raise RuntimeError w' log').
  { unfold Dict.iter_new.
    replace (Dict.len (TIMERS w)) with (Dict.len pre + S (Dict.len rest))%nat
      at 2 by (rewrite Ht, dict_len_app; reflexivity).
    apply (timers_loop_raises_after_delete E f now w w' log log' rest fn target
             d v Hdue Hd Hc Hlen pre 0%nat (Dict.len rest));
      [exact Ht | exact Hpre]. }
  split; [exact Hloop|]. split; [|split].
  - destruct (any_call_framed E (S f) fn now (set_TIMERS d w)
                (EvTimer fn now target d :: log)) as (l & Hl & _).
    rewrite Hc in Hl. simpl in Hl. eauto.
  - apply (dict_del_len _ _ _ Hd).
  - intros w0 log0 v0 Hguard Hnow Hint.
    cbn [main_loop]. rewrite Hguard.
    unfold time_monotonic in *. cbn [fst snd] in Hnow, Hint.
    rewrite <- Hnow, Hint, Hloop. reflexivity.
Qed.

Lemma due_timer_deleted_witness :
  TIMERS one_timer = [] ++ Some (Fn 0, 0) :: [] /\
  (forall g t, In (g, t) (Dict.items (@nil (option (callable * time)))) -> 0 < t) /\
  0 <= 0 /\
  Dict.del (Fn 0) (TIMERS one_timer) = Some [None] /\
  call idle_app 1 (Fn 0) 0 (set_TIMERS [None] one_timer)
       [EvTimer (Fn 0) 0 0 [None]]
  = Ok VNone (set_TIMERS [None] one_timer) [EvTimer (Fn 0) 0 0 [None]] /\
  Dict.len (TIMERS (set_TIMERS [None] one_timer)) <> Dict.len (TIMERS one_timer) /\
  timers_loop idle_app 2 (Dict.iter_new (TIMERS one_timer)) 0 one_timer []
  = Raise RuntimeError (set_TIMERS [None] one_timer) [EvTimer (Fn 0) 0 0 [None]].
Proof.
  assert (H2 : forall g t,
    In (g, t) (Dict.items (@nil (option (callable * time)))) -> 0 < t).
  { intros g t []. }
  assert (H3 : 0 <= 0) by lia.
  assert (H6 : Dict.len (TIMERS (set_TIMERS [None] one_timer))
               <> Dict.len (TIMERS one_timer)).
  { vm_compute. discriminate. }
  repeat (split; [first [reflexivity | assumption]|]).
  exact (proj1 (due_timer_deleted_during_iteration idle_app 0 0 one_timer
                  (set_TIMERS [None] one_timer) [] [EvTimer (Fn 0) 0 0 [None]]
                  [] [] (Fn 0) 0 [None] VNone
                  eq_refl H2 H3 eq_refl eq_refl H6)).
Defined.

(** C4, counterexample.  One timer, due at time 0.
    - When its handler raises, the cycle ends with the handler's exception:
      there is no further step of the iterator and no [RuntimeError].
    - When its handler empties the table and registers itself again, the
      next step of the iterator finds the table at its size and nothing past
      its position: the loop over [TIMERS] completes, the cycle goes on to
      compute the next wake time and sleeps, and the next cycle calls the
      timer again. *)
Lemma due_timer_without_runtime_error :
  start faulting_app 4 one_timer []
  = Raise (AppError 1) (set_clock_reads 1 (set_TIMERS [None] one_timer))
      [EvTimer (Fn 0) 0 0 [None]] /\
  timers_loop cancelling_app 3 (Dict.iter_new (TIMERS one_timer)) 0 one_timer []
  = Ok VNone (set_TIMERS [Some (Fn 0, 3)] one_timer)
       [EvTimer (Fn 0) 0 0 [None]] /\
  final_log (start cancelling_app 4 one_timer [])
  = [EvSleep 1; EvSleep 2; EvTimer (Fn 0) 4 3 [None];
     EvSleep 1; EvSleep 2; EvTimer (Fn 0) 0 0 [None]].
Proof.
  repeat split; reflexivity.
Qed.

(** A handler that only registers itself again, [at(now + 3, fn)], does not
    collide with its deleted entry, and the table is back at its size; the
    iterator then finds the new entry where it expected none and raises. *)
Example rearming_timer_raises :
  Dict.get (Fn 0) (TIMERS (at_ 3 (Fn 0) (set_TIMERS [None] one_timer)))
  = Some 3 /\
  start rearming_app 4 one_timer []
  = Raise RuntimeError
      (set_clock_reads 1 (set_TIMERS [None; Some (Fn 0, 3)] one_timer))
      [EvTimer (Fn 0) 0 0 [None]].
Proof.
  split; reflexivity.
Qed.

(** ** stop() and the end of the loop *)

(** The loop returns only through the guard at the top of a cycle: with
    both tables empty, after printing, and with the value 0. *)
Lemma main_loop_returns_only_when_idle (E : Env) (fuel : nat) (w w' : World)
    (log log' : list event) (v : pyval) :
  main_loop E fuel w log = Ok v w' log' ->
  v = VNum 0 /\ Dict.len (TIMERS w') = 0%nat /\ Dict.len (INTERVALS w') = 0%nat /\
  exists log0, log' = EvPrint quitting :: log0.
Proof.
  revert w log. induction fuel as [|fuel IH]; intros w log; simpl;
    [discriminate|].
  destruct ((Dict.len (TIMERS w) =? 0)%nat && (Dict.len (INTERVALS w) =? 0)%nat)
    eqn:Hg.
  - intros H. inversion H; subst. apply andb_true_iff in Hg.
    destruct Hg as (H1 & H2). apply Nat.eqb_eq in H1, H2. eauto.
  - destruct (intervals_loop E fuel _ _ _ log) as [v2 w2 log2| |];
      try discriminate.
    destruct (timers_loop E fuel _ _ w2 log2) as [v3 w3 log3| |];
      try discriminate.
    destruct (next_target w3) as [target|]; [|discriminate].
    destruct (park E fuel target w3 log3) as [v4 w4 log4| |];
      try discriminate.
    apply IH.
Qed.

(** One full cycle of the tick task whose handler calls [stop()]: the task
    is called, [RUNNING] is false afterwards, and the loop goes into its next
    cycle. *)
Lemma stopping_cycle (m k : nat) (running : bool) (last : time)
    (log : list event) :
  last <= Z.of_nat k ->
  main_loop stopping_app (S (S (S m))) (ticking running last k) log
  = main_loop stopping_app (S (S m))
      (ticking false (Z.of_nat k) (S (S k)))
      (EvPeriodic (Fn 0) (Z.of_nat k) 0 last :: log).
Proof.
  intros Hle.
  assert (Hdue : (last + 0 <=? Z.of_nat k) = true)
    by (apply Z.leb_le; lia).
  assert (Hslp : (0 <? Z.of_nat k - Z.of_nat (S k)) = false)
    by (apply Z.ltb_ge; lia).
  cbn -[Z.of_nat Z.leb Z.ltb Z.add Z.sub]. unfold ms_clock.
  rewrite Hdue. cbn -[Z.of_nat Z.leb Z.ltb Z.add Z.sub]. unfold ms_clock.
  rewrite Z.add_0_l, Hslp. reflexivity.
Qed.

Lemma stopping_run (n k : nat) (running : bool) (last : time)
    (log : list event) :
  last <= Z.of_nat k ->
  let o := main_loop stopping_app (S n) (ticking running last k) log in
  periodic_calls (final_log o) = (n + periodic_calls log)%nat /\
  ((1 <= n)%nat -> RUNNING (final_world o) = false) /\
  returned o = false.
Proof.
  revert k running last log.
  induction n as [|n IH]; intros k running last log Hle.
  - cbn. repeat split; try reflexivity. lia.
  - destruct n as [|m].
    + assert (Hdue : (last + 0 <=? Z.of_nat k) = true)
        by (apply Z.leb_le; lia).
      cbn -[Z.of_nat Z.leb Z.add]. unfold ms_clock. rewrite Hdue.
      cbn. repeat split; reflexivity.
    + cbv zeta. rewrite (stopping_cycle m k running last log Hle).
      destruct (IH (S (S k)) false (Z.of_nat k)
                   (EvPeriodic (Fn 0) (Z.of_nat k) 0 last :: log))
        as (H1 & H2 & H3); [lia|].
      cbv zeta in H1, H2, H3. rewrite H1, H3. simpl periodic_calls.
      repeat split; [lia|]. intros _. apply H2. lia.
Qed.

(** C1, on the code.  A tick task whose handler calls [stop()]: however
    long the loop is left to run, it goes on calling the task, once per unit
    of fuel after the first, with [RUNNING] false from the first call on, and
    never returns. *)
Theorem stop_does_not_end_the_loop :
  forall n : nat,
    periodic_calls (final_log (start stopping_app (S n) one_tick [])) = n /\
    ((1 <= n)%nat ->
     RUNNING (final_world (start stopping_app (S n) one_tick [])) = false) /\
    returned (start stopping_app (S n) one_tick []) = false.
Proof.
  intros n.
  destruct (stopping_run n 0 true 0 []) as (H1 & H2 & H3); [simpl; lia|].
  cbv zeta in H1, H2, H3. simpl in H1. rewrite Nat.add_0_r in H1.
  repeat split; assumption.
Qed.

(** ** The last timer *)

Lemma next_target_empty (w : World) :
  Dict.len (INTERVALS w) = 0%nat -> Dict.len (TIMERS w) = 0%nat ->
  next_target w = None.
Proof.
  intros H1 H2. unfold next_target, wake_candidates, Dict.values, Dict.len in *.
  apply length_zero_iff_nil in H1, H2. rewrite H1, H2. reflexivity.
Qed.

(** C2, on the code.  One timer due at once, whose handler does nothing.
    - At every fuel that lets the first cycle reach the second step of the
      loop over [TIMERS], [start] ends that cycle with [RuntimeError], raised
      by the iterator after the entry was deleted; it never gets back to the
      guard and prints nothing.
    - In the world the handler leaves, with no entry in either table, the
      next wake time is undefined: [min] of the empty list raises
      [ValueError]. *)
Theorem last_timer_ends_in_an_exception :
  forall n : nat,
    start idle_app (S (S (S n))) one_timer []
    = Raise RuntimeError
        (set_clock_reads 1 (set_TIMERS [None] one_timer))
        [EvTimer (Fn 0) 0 0 [None]] /\
    Dict.len (INTERVALS (set_clock_reads 1 (set_TIMERS [None] one_timer)))
    = 0%nat /\
    Dict.len (TIMERS (set_clock_reads 1 (set_TIMERS [None] one_timer)))
    = 0%nat /\
    next_target (set_clock_reads 1 (set_TIMERS [None] one_timer)) = None.
Proof.
  intros n. repeat split; reflexivity.
Qed.

(** Started with nothing registered, the loop prints and returns 0. *)
Lemma start_with_nothing_registered (E : Env) (n : nat) :
  start E (S n) initial [] = Ok (VNum 0) initial [EvPrint quitting].
Proof. reflexivity. Qed.

(** ** Further facts about registration and termination *)

(** [after(delay, fn)] fixes the deadline when it is called: the reading of
    the clock at that moment plus the delay, whenever the loop starts. *)
Lemma after_fixes_deadline_at_call (E : Env) (delay : time) (fn : callable)
    (w : World) :
  Dict.get fn (TIMERS (after E delay fn w))
  = Some (monotonic E (clock_reads w) + delay).
Proof.
  unfold after, time_monotonic. simpl. apply dict_get_set.
Qed.

(** Whatever [RUNNING] holds, [start] returns only through the guard at the
    top of a cycle: with the value 0, both tables empty, right after
    printing. *)
Lemma start_returns_only_when_idle (E : Env) (fuel : nat) (w w' : World)
    (log' : list event) (v : pyval) :
  start E fuel w [] = Ok v w' log' ->
  v = VNum 0 /\ Dict.len (TIMERS w') = 0%nat /\ Dict.len (INTERVALS w') = 0%nat /\
  exists log0, log' = EvPrint quitting :: log0.
Proof.
  unfold start. apply main_loop_returns_only_when_idle.
Qed.

Lemma start_returns_only_when_idle_witness :
  start idle_app 1 (stop initial) [] = Ok (VNum 0) (stop initial) [EvPrint quitting] /\
  (VNum 0 = VNum 0 /\
   Dict.len (TIMERS (stop initial)) = 0%nat /\
   Dict.len (INTERVALS (stop initial)) = 0%nat /\
   exists log0, [EvPrint quitting] = EvPrint quitting :: log0).
Proof.
  split; [reflexivity|].
  apply (start_returns_only_when_idle idle_app 1 (stop initial) (stop initial)
           [EvPrint quitting] (VNum 0)).
  reflexivity.
Defined.

(** ** The loop never reads RUNNING

    Two applications on the same board whose callbacks do the same up to
    what they leave in [RUNNING] (one calls [stop()], the other does not) run
    the same way: same outcome, same log, same world up to [RUNNING]. *)
Section RunningIsNotRead.

Variables E1 E2 : Env.
Hypothesis same_clock : forall k, monotonic E1 k = monotonic E2 k.
Hypothesis same_pins_read : forall k p, pin_value E1 k p = pin_value E2 k p.
Hypothesis same_bodies :
  forall id now w1 w2,
    up_to_RUNNING w1 w2 -> same_hres (body E1 id now w1) (body E2 id now w2).

Lemma up_to_RUNNING_refl (w : World) : up_to_RUNNING w w.
Proof. exists (RUNNING w). destruct w; reflexivity. Qed.

Lemma dispatch_same (invoke1 invoke2 : invoker) :
  (forall fn now w1 w2 log,
      up_to_RUNNING w1 w2 ->
      same_outcome (invoke1 fn now w1 log) (invoke2 fn now w2 log)) ->
  forall fuel i now fd fu w1 w2 log,
    up_to_RUNNING w1 w2 ->
    same_outcome (dispatch invoke1 fuel i now fd fu w1 log)
                 (dispatch invoke2 fuel i now fd fu w2 log).
Proof.
  intros Hinv fuel.
  induction fuel as [|fuel IH]; intros i now fd fu w1 w2 log Hw.
  - simpl. auto.
  - destruct Hw as (b & ->). simpl.
    destruct (nth_error (PRESSES w1) i) as [[[fn chord] action]|].
    + destruct (binding_fires chord action fd fu).
      * pose proof (Hinv fn now w1 (set_RUNNING b w1) (EvButton fn now :: log)
                         (ex_intro _ b eq_refl)) as H.
        destruct (invoke1 fn now w1 (EvButton fn now :: log))
          as [v1 w1' l1|e1 w1' l1|w1' l1];
          destruct (invoke2 fn now (set_RUNNING b w1) (EvButton fn now :: log))
            as [v2 w2' l2|e2 w2' l2|w2' l2];
          simpl in H; try contradiction; try exact H.
        destruct H as (-> & Hw & ->).
        destruct (is_PROPOGATE v2); [apply IH, Hw | simpl; auto].
      * simpl. apply IH. exists b. reflexivity.
    + simpl. repeat split. exists b. reflexivity.
Qed.

Lemma read_pins_same (w : World) (b : bool) :
  read_pins E1 w = read_pins E2 (set_RUNNING b w).
Proof.
  unfold read_pins. simpl. f_equal. apply filter_ext.
  intros [p dio]. apply same_pins_read.
Qed.

Lemma Gamepad_call_same (invoke1 invoke2 : invoker) :
  (forall fn now w1 w2 log,
      up_to_RUNNING w1 w2 ->
      same_outcome (invoke1 fn now w1 log) (invoke2 fn now w2 log)) ->
  forall fuel addr now w1 w2 log,
    up_to_RUNNING w1 w2 ->
    same_outcome (Gamepad_call E1 invoke1 fuel addr now w1 log)
                 (Gamepad_call E2 invoke2 fuel addr now w2 log).
Proof.
  intros Hinv fuel addr now w1 w2 log (b & ->). unfold Gamepad_call.
  rewrite <- read_pins_same. simpl.
  destruct (nth_error (heap w1) addr) as [gp|].
  - destruct (edge_detect (read_pins E1 w1) gp) as [[gp' [[fd fu]|]]|].
    + apply dispatch_same; [exact Hinv|]. exists b. reflexivity.
    + simpl. repeat split. exists b. reflexivity.
    + simpl. repeat split. exists b. reflexivity.
  - simpl. repeat split. exists b. reflexivity.
Qed.

Lemma call_same (fuel : nat) (fn : callable) (now : time) (w1 w2 : World)
    (log : list event) :
  up_to_RUNNING w1 w2 ->
  same_outcome (call E1 fuel fn now w1 log) (call E2 fuel fn now w2 log).
Proof.
  revert fn now w1 w2 log.
  induction fuel as [|fuel IH]; intros [id|addr] now w1 w2 log Hw; simpl.
  - pose proof (same_bodies id now w1 w2 Hw) as H.
    destruct (body E1 id now w1), (body E2 id now w2); simpl in *;
      try contradiction; destruct H; auto.
  - auto.
  - pose proof (same_bodies id now w1 w2 Hw) as H.
    destruct (body E1 id now w1), (body E2 id now w2); simpl in *;
      try contradiction; destruct H; auto.
  - apply Gamepad_call_same; [|exact Hw]. intros. apply IH. assumption.
Qed.

Lemma intervals_loop_same (fuel : nat) (it : Dict.iter) (now : time)
    (w1 w2 : World) (log : list event) :
  up_to_RUNNING w1 w2 ->
  same_outcome (intervals_loop E1 fuel it now w1 log)
               (intervals_loop E2 fuel it now w2 log).
Proof.
  revert it w1 w2 log.
  induction fuel as [|fuel IH]; intros it w1 w2 log Hw.
  - simpl. auto.
  - pose proof Hw as (b & ->). simpl.
    destruct (Dict.next (INTERVALS w1) it) as [fn [interval last] it'| |].
    + destruct (last + interval <=? now).
      * pose proof (call_same fuel fn now w1 (set_RUNNING b w1)
                      (EvPeriodic fn now interval last :: log) Hw) as H.
        destruct (call E1 fuel fn now w1 (EvPeriodic fn now interval last :: log))
          as [v1 w1' l1|e1 w1' l1|w1' l1];
          destruct (call E2 fuel fn now (set_RUNNING b w1)
                         (EvPeriodic fn now interval last :: log))
            as [v2 w2' l2|e2 w2' l2|w2' l2];
          simpl in H; try contradiction; try exact H.
        destruct H as (_ & (b' & ->) & ->). apply IH.
        exists b'. reflexivity.
      * apply IH, Hw.
    + simpl. auto.
    + simpl. auto.
Qed.

Lemma timers_loop_same (fuel : nat) (it : Dict.iter) (now : time)
    (w1 w2 : World) (log : list event) :
  up_to_RUNNING w1 w2 ->
  same_outcome (timers_loop E1 fuel it now w1 log)
               (timers_loop E2 fuel it now w2 log).
Proof.
  revert it w1 w2 log.
  induction fuel as [|fuel IH]; intros it w1 w2 log Hw.
  - simpl. auto.
  - pose proof Hw as (b & ->). simpl.
    destruct (Dict.next (TIMERS w1) it) as [fn target it'| |].
    + destruct (target <=? now).
      * destruct (Dict.del fn (TIMERS w1)) as [d|]; [|simpl; auto].
        assert (Hd : up_to_RUNNING (set_TIMERS d w1)
                                   (set_TIMERS d (set_RUNNING b w1)))
          by (exists b; reflexivity).
        pose proof (call_same fuel fn now _ _
                      (EvTimer fn now target d :: log) Hd) as H.
        destruct (call E1 fuel fn now (set_TIMERS d w1)
                       (EvTimer fn now target d :: log))
          as [v1 w1' l1|e1 w1' l1|w1' l1];
          destruct (call E2 fuel fn now (set_TIMERS d (set_RUNNING b w1))
                         (EvTimer fn now target d :: log))
            as [v2 w2' l2|e2 w2' l2|w2' l2];
          simpl in H; try contradiction; try exact H.
        destruct H as (_ & Hw' & ->). apply IH, Hw'.
      * apply IH, Hw.
    + simpl. auto.
    + simpl. auto.
Qed.

Lemma park_same (fuel : nat) (target : time) (w1 w2 : World)
    (log : list event) :
  up_to_RUNNING w1 w2 ->
  same_outcome (park E1 fuel target w1 log) (park E2 fuel target w2 log).
Proof.
  revert w1 w2 log. induction fuel as [|fuel IH]; intros w1 w2 log Hw.
  - simpl. auto.
  - pose proof Hw as (b & ->). simpl. rewrite <- same_clock.
    destruct (0 <? target - monotonic E1 (clock_reads w1)).
    + apply IH. exists b. reflexivity.
    + simpl. repeat split. exists b. reflexivity.
Qed.

Lemma main_loop_same (fuel : nat) (w1 w2 : World) (log : list event) :
  up_to_RUNNING w1 w2 ->
  same_outcome (main_loop E1 fuel w1 log) (main_loop E2 fuel w2 log).
Proof.
  revert w1 w2 log. induction fuel as [|fuel IH]; intros w1 w2 log Hw.
  - simpl. auto.
  - pose proof Hw as (b & ->). simpl. rewrite <- same_clock.
    destruct ((Dict.len (TIMERS w1) =? 0)%nat
              && (Dict.len (INTERVALS w1) =? 0)%nat).
    + simpl. auto.
    + assert (Hc : up_to_RUNNING
                     (set_clock_reads (S (clock_reads w1)) w1)
                     (set_clock_reads (S (clock_reads w1)) (set_RUNNING b w1)))
        by (exists b; reflexivity).
      pose proof (intervals_loop_same fuel (Dict.iter_new (INTERVALS w1))
                    (monotonic E1 (clock_reads w1)) _ _ log Hc) as H1.
      destruct (intervals_loop E1 fuel _ _ _ log) as [v2 w2 l2|e2 w2 l2|w2 l2];
        destruct (intervals_loop E2 fuel _ _ _ log) as [v2' w2' l2'| |];
        simpl in H1; try contradiction; try exact H1.
      destruct H1 as (_ & Hw2 & ->). pose proof Hw2 as (b2 & ->).
      pose proof (timers_loop_same fuel (Dict.iter_new (TIMERS w2))
                    (monotonic E1 (clock_reads w1)) _ _ l2' Hw2) as H2.
      simpl in H2 |- *.
      destruct (timers_loop E1 fuel _ _ w2 l2') as [v3 w3 l3|e3 w3 l3|w3 l3];
        destruct (timers_loop E2 fuel _ _ _ l2') as [v3' w3' l3'| |];
        simpl in H2; try contradiction; try exact H2.
      destruct H2 as (_ & Hw3 & ->). pose proof Hw3 as (b3 & ->).
      change (next_target (set_RUNNING b3 w3)) with (next_target w3).
      destruct (next_target w3) as [target|]; [|simpl; auto].
      pose proof (park_same fuel target _ _ l3' Hw3) as H3.
      destruct (park E1 fuel target w3 l3') as [v4 w4 l4|e4 w4 l4|w4 l4];
        destruct (park E2 fuel target _ l3') as [v4' w4' l4'| |];
        simpl in H3; try contradiction; try exact H3.
      destruct H3 as (_ & Hw4 & ->). apply IH, Hw4.
Qed.

(** [start] runs the same way in both applications, from worlds that agree
    up to [RUNNING]. *)
Lemma start_ignores_RUNNING (fuel : nat) (w1 w2 : World) (log : list event) :
  up_to_RUNNING w1 w2 ->
  same_outcome (start E1 fuel w1 log) (start E2 fuel w2 log).
Proof.
  intros (b & ->). unfold start. apply main_loop_same.
  exists b. unfold start_setup. simpl.
  destruct (nonempty (PRESSES w1)); reflexivity.
Qed.

End RunningIsNotRead.

Lemma start_ignores_RUNNING_witness :
  (forall k, monotonic stopping_app k = monotonic idle_app k) /\
  (forall k p, pin_value stopping_app k p = pin_value idle_app k p) /\
  (forall id now w1 w2,
      up_to_RUNNING w1 w2 ->
      same_hres (body stopping_app id now w1) (body idle_app id now w2)) /\
  up_to_RUNNING one_tick one_tick /\
  same_outcome (start stopping_app 6 one_tick []) (start idle_app 6 one_tick []).
Proof.
  assert (H3 : forall id now w1 w2,
    up_to_RUNNING w1 w2 ->
    same_hres (body stopping_app id now w1) (body idle_app id now w2)).
  { intros id now w1 w2 (b & ->). simpl. split; [reflexivity|].
    exists b. reflexivity. }
  assert (H4 : up_to_RUNNING one_tick one_tick).
  { exists true. reflexivity. }
  split; [reflexivity|]. split; [reflexivity|]. split; [exact H3|].
  split; [exact H4|].
  apply (start_ignores_RUNNING stopping_app idle_app
           (fun k => eq_refl) (fun k p => eq_refl) H3 6 one_tick one_tick [] H4).
Defined.

(** ** More on the edge detector *)

Lemma filter_kept (raw p : list pin) :
  set_minus p raw = [] -> filter (fun b => pin_in b raw) p = p.
Proof.
  unfold set_minus. induction p as [|a p IH]; simpl; [reflexivity|].
  destruct (pin_in a raw); simpl; [|discriminate].
  intros H. f_equal. apply IH, H.
Qed.

Lemma edge_detect_settling (raw : list pin) (self : Gamepad) :
  raw <> down self ->
  edge_detect raw self = Some ({| down := raw; pressed := pressed self |}, None).
Proof.
  intros Hne. unfold edge_detect.
  destruct (pins_eqb raw (down self)) eqn:Hb; [|reflexivity].
  apply pins_eqb_eq in Hb. contradiction.
Qed.

Lemma edge_detect_settled (self : Gamepad) :
  same_pins (down self) (pressed self) ->
  edge_detect (down self) self = Some (self, None).
Proof.
  intros Hsame. rewrite (edge_detect_stable (down self) self eq_refl). cbv zeta.
  assert (Hfd : set_minus (down self) (pressed self) = []).
  { destruct (set_minus (down self) (pressed self)) as [|a fd] eqn:Hfd;
      [reflexivity|].
    assert (Ha : In a (set_minus (down self) (pressed self)))
      by (rewrite Hfd; left; reflexivity).
    apply set_minus_In in Ha. destruct Ha as (Ha & Hn).
    apply Hsame in Ha. contradiction. }
  assert (Hfu : set_minus (pressed self) (down self) = []).
  { destruct (set_minus (pressed self) (down self)) as [|a fu] eqn:Hfu;
      [reflexivity|].
    assert (Ha : In a (set_minus (pressed self) (down self)))
      by (rewrite Hfu; left; reflexivity).
    apply set_minus_In in Ha. destruct Ha as (Ha & Hn).
    apply Hsame in Ha. contradiction. }
  rewrite Hfd, Hfu, app_nil_r, (filter_kept _ _ Hfu). simpl.
  destruct self; reflexivity.
Qed.

(** What one tick leaves, whatever the sample. *)
Lemma edge_detect_cases (raw : list pin) (self : Gamepad) :
  exists held ev,
    edge_detect raw self = Some ({| down := raw; pressed := held |}, ev) /\
    (raw <> down self -> held = pressed self /\ ev = None) /\
    (raw = down self -> same_pins raw held) /\
    match ev with
    | Some (fd, fu) =>
        raw = down self /\
        fd = set_minus raw (pressed self) /\
        fu = set_minus (pressed self) raw /\
        (fd <> [] \/ fu <> [])
    | None => held = pressed self
    end.
Proof.
  destruct (pins_eqb raw (down self)) eqn:Hb.
  - apply pins_eqb_eq in Hb.
    exists (filter (fun x => pin_in x raw) (pressed self)
            ++ set_minus raw (pressed self)),
      (if negb (nonempty (set_minus raw (pressed self))
                || nonempty (set_minus (pressed self) raw))
       then None
       else Some (set_minus raw (pressed self), set_minus (pressed self) raw)).
    split.
    { rewrite (edge_detect_stable raw self Hb). cbv zeta.
      destruct (negb _); reflexivity. }
    split; [intros Hne; contradiction|].
    split.
    { intros _ x. symmetry. apply held_after_update. }
    destruct (set_minus raw (pressed self)) as [|a fd] eqn:Hfd;
      destruct (set_minus (pressed self) raw) as [|b fu] eqn:Hfu; simpl.
    + rewrite app_nil_r. apply filter_kept, Hfu.
    + repeat split; auto. right. discriminate.
    + repeat split; auto. left. discriminate.
    + repeat split; auto. left. discriminate.
  - assert (Hne : raw <> down self).
    { intros Heq. apply pins_eqb_eq in Heq. congruence. }
    exists (pressed self), None. rewrite (edge_detect_settling _ _ Hne).
    repeat split; tauto.
Qed.

(** The edge detector never fails: whatever the sample and the attributes,
    [list.remove] finds every pin it is asked to remove.  The previous sample
    always becomes the sample just read; a tick without an event set leaves
    the held pins as they were; an event set is never empty, holds exactly
    the pins that came up and the pins that went down, and leaves the held
    pins equal to the pins of the sample. *)
Theorem edge_detect_never_fails :
  forall (raw : list pin) (self : Gamepad),
    exists self' ev,
      edge_detect raw self = Some (self', ev) /\
      down self' = raw /\
      (ev = None -> pressed self' = pressed self) /\
      (forall fd fu,
          ev = Some (fd, fu) ->
          (fd <> [] \/ fu <> []) /\
          (forall b, In b fd <-> In b raw /\ ~ In b (pressed self)) /\
          (forall b, In b fu <-> In b (pressed self) /\ ~ In b raw) /\
          same_pins (pressed self') raw).
Proof.
  intros raw self.
  destruct (edge_detect_cases raw self) as (held & ev & He & Hne & Heq & Hev).
  exists {| down := raw; pressed := held |}, ev.
  split; [exact He|]. split; [reflexivity|]. split.
  - intros ->. exact Hev.
  - intros fd fu ->. destruct Hev as (Hraw & -> & -> & Hnon).
    split; [exact Hnon|]. split; [intros b; apply set_minus_In|].
    split; [intros b; apply set_minus_In|].
    intros x. symmetry. apply (Heq Hraw).
Qed.

Lemma feed_one (raw : list pin) (self self' : Gamepad)
    (ev : option (list pin * list pin)) :
  edge_detect raw self = Some (self', ev) ->
  forall rest,
    feed (raw :: rest) self
    = match feed rest self' with
      | None => None
      | Some (last, evs) =>
          Some (last, match ev with Some e => e :: evs | None => evs end)
      end.
Proof. intros H rest. simpl. rewrite H. reflexivity. Qed.

(** Two equal samples in a row always settle the detector, whatever it held
    before: the held pins are then the pins of the sample, at most one event
    set was produced on the way, and a third equal sample changes nothing
    and produces nothing, so a button that stays down is reported once. *)
Theorem two_equal_samples_settle :
  forall (s : list pin) (self : Gamepad),
    exists last evs,
      feed [s; s] self = Some (last, evs) /\
      down last = s /\
      same_pins (pressed last) s /\
      (length evs <= 1)%nat /\
      feed [s] last = Some (last, []).
Proof.
  intros s self.
  destruct (edge_detect_cases s self) as (h1 & ev1 & He1 & Hne1 & Heq1 & Hev1).
  destruct (list_eq_dec Nat.eq_dec s (down self)) as [Hs|Hs].
  - (* the first sample already equals the previous one *)
    assert (Hsame : same_pins (down {| down := s; pressed := h1 |})
                              (pressed {| down := s; pressed := h1 |}))
      by (apply Heq1, Hs).
    pose proof (edge_detect_settled _ Hsame) as He2. simpl in He2.
    exists {| down := s; pressed := h1 |},
      (match ev1 with Some e => [e] | None => [] end).
    split.
    { rewrite (feed_one _ _ _ _ He1), (feed_one _ _ _ _ He2). simpl.
      destruct ev1; reflexivity. }
    split; [reflexivity|]. split.
    { intros x. symmetry. apply (Heq1 Hs). }
    split; [destruct ev1; simpl; lia|].
    rewrite (feed_one _ _ _ _ He2). reflexivity.
  - (* the first sample only becomes the previous sample *)
    destruct (Hne1 Hs) as (-> & ->).
    destruct (edge_detect_cases s {| down := s; pressed := pressed self |})
      as (h2 & ev2 & He2 & _ & Heq2 & _).
    specialize (Heq2 eq_refl).
    assert (Hsame : same_pins (down {| down := s; pressed := h2 |})
                              (pressed {| down := s; pressed := h2 |}))
      by exact Heq2.
    pose proof (edge_detect_settled _ Hsame) as He3. simpl in He3.
    exists {| down := s; pressed := h2 |},
      (match ev2 with Some e => [e] | None => [] end).
    split.
    { rewrite (feed_one _ _ _ _ He1), (feed_one _ _ _ _ He2). simpl.
      destruct ev2; reflexivity. }
    split; [reflexivity|]. split.
    { intros x. symmetry. apply Heq2. }
    split; [destruct ev2; simpl; lia|].
    rewrite (feed_one _ _ _ _ He3). reflexivity.
Qed.

(** A sample that differs from the previous one for a single poll is never
    reported: when the next poll reads the previous sample again, the
    attributes are back where they were and no event set was produced,
    whatever pins were held. *)
Theorem single_poll_glitch_is_ignored :
  forall (glitch : list pin) (self : Gamepad),
    glitch <> down self ->
    feed [glitch; down self] self = Some (self, []).
Proof.
  intros glitch self Hne.
  rewrite (feed_one _ _ _ _ (edge_detect_settling glitch self Hne)).
  assert (Hback : down self <> down {| down := glitch; pressed := pressed self |})
    by (simpl; congruence).
  rewrite (feed_one _ _ _ _ (edge_detect_settling _ _ Hback)). simpl.
  destruct self; reflexivity.
Qed.

Lemma single_poll_glitch_is_ignored_witness :
  [2%nat] <> down {| down := [1%nat]; pressed := [1%nat] |} /\
  feed [[2%nat]; [1%nat]] {| down := [1%nat]; pressed := [1%nat] |}
  = Some ({| down := [1%nat]; pressed := [1%nat] |}, []).
Proof.
  assert (H : [2%nat] <> down {| down := [1%nat]; pressed := [1%nat] |})
    by (simpl; discriminate).
  split; [exact H|].
  exact (single_poll_glitch_is_ignored [2%nat]
           {| down := [1%nat]; pressed := [1%nat] |} H).
Defined.

(** ** More on the dispatcher *)

Lemma dispatch_no_match (invoke : invoker) (now : time) (fd fu : list pin)
    (log : list event) (w : World) :
  (forall fn chord action,
      In (fn, chord, action) (PRESSES w) ->
      binding_fires chord action fd fu = false) ->
  forall fuel i,
    (length (PRESSES w) - i < fuel)%nat ->
    dispatch invoke fuel i now fd fu w log = Ok VNone w log.
Proof.
  intros Hno fuel. induction fuel as [|fuel IH]; intros i Hf; [lia|].
  simpl. destruct (nth_error (PRESSES w) i) as [[[fn chord] action]|] eqn:Hn;
    [|reflexivity].
  rewrite (Hno fn chord action (nth_error_In _ _ Hn)). simpl.
  assert (Hlen : (i < length (PRESSES w))%nat)
    by (apply nth_error_Some; congruence).
  apply IH. lia.
Qed.

(** A tick on which no binding matches calls no handler: the dispatcher
    goes through all the bindings and returns, leaving the world and the log
    as they were.  A binding registered with an action other than [DOWN] and
    [UP] never matches, whatever its chord and the pins that changed. *)
Theorem dispatch_without_match_calls_nothing :
  forall (invoke : invoker) (fuel : nat) (now : time) (fd fu : list pin)
         (w : World) (log : list event),
    (length (PRESSES w) < fuel)%nat ->
    (forall fn chord action,
        In (fn, chord, action) (PRESSES w) ->
        (action = DOWN -> exists b, In b chord /\ ~ In b fd) /\
        (action = UP -> exists b, In b chord /\ ~ In b fu)) ->
    dispatch invoke fuel 0 now fd fu w log = Ok VNone w log.
Proof.
  intros invoke fuel now fd fu w log Hf Hno.
  apply dispatch_no_match; [|lia].
  intros fn chord action Hin. destruct (Hno fn chord action Hin) as (Hd & Hu).
  assert (Hmiss : forall fresh, (exists b, In b chord /\ ~ In b fresh) ->
                                chord_in chord fresh = false).
  { intros fresh (b & Hb & Hnb).
    destruct (chord_in chord fresh) eqn:Hc; [|reflexivity].
    exfalso. apply Hnb. apply (proj1 (chord_in_spec chord fresh) Hc b Hb). }
  unfold binding_fires.
  destruct (action =? DOWN) eqn:Ed.
  - apply Z.eqb_eq in Ed. rewrite (Hmiss fd (Hd Ed)). simpl.
    destruct (action =? UP) eqn:Eu; [|reflexivity].
    apply Z.eqb_eq in Eu. rewrite (Hmiss fu (Hu Eu)). reflexivity.
  - simpl. destruct (action =? UP) eqn:Eu; [|reflexivity].
    apply Z.eqb_eq in Eu. rewrite (Hmiss fu (Hu Eu)). reflexivity.
Qed.

Lemma dispatch_without_match_witness :
  (length (PRESSES two_chords) < 3)%nat /\
  (forall fn chord action,
      In (fn, chord, action) (PRESSES two_chords) ->
      (action = DOWN -> exists b, In b chord /\ ~ In b [2%nat]) /\
      (action = UP -> exists b, In b chord /\ ~ In b [1%nat])) /\
  dispatch (call idle_app 0) 3 0 5 [2%nat] [1%nat] two_chords []
  = Ok VNone two_chords [].
Proof.
  assert (H1 : (length (PRESSES two_chords) < 3)%nat) by (simpl; lia).
  assert (H2 : forall fn chord action,
    In (fn, chord, action) (PRESSES two_chords) ->
    (action = DOWN -> exists b, In b chord /\ ~ In b [2%nat]) /\
    (action = UP -> exists b, In b chord /\ ~ In b [1%nat])).
  { intros fn chord action [H|[H|[]]]; inversion H; subst; split;
      try (intros Hx; discriminate Hx);
      intros _; exists 1%nat; simpl; split; auto;
      intros [Hx|[]]; discriminate Hx. }
  split; [exact H1|]. split; [exact H2|].
  exact (dispatch_without_match_calls_nothing (call idle_app 0) 3 5
           [2%nat] [1%nat] two_chords [] H1 H2).
Defined.

(** ** Starting with nothing to do *)

(** With no entry in either table and no binding registered, [start]
    prints its message and returns 0 in its first cycle, without reading the
    clock and without changing the world. *)
Theorem start_with_nothing_to_do :
  forall (E : Env) (n : nat) (w : World) (log : list event),
    Dict.len (TIMERS w) = 0%nat ->
    Dict.len (INTERVALS w) = 0%nat ->
    PRESSES w = [] ->
    start E (S n) w log = Ok (VNum 0) w (EvPrint quitting :: log).
Proof.
  intros E n w log Ht Hi Hp. unfold start, start_setup. rewrite Hp. simpl.
  rewrite Ht, Hi. reflexivity.
Qed.

Lemma start_with_nothing_to_do_witness :
  Dict.len (TIMERS (set_TIMERS [None] one_timer)) = 0%nat /\
  Dict.len (INTERVALS (set_TIMERS [None] one_timer)) = 0%nat /\
  PRESSES (set_TIMERS [None] one_timer) = [] /\
  start idle_app 1 (set_TIMERS [None] one_timer) []
  = Ok (VNum 0) (set_TIMERS [None] one_timer) [EvPrint quitting].
Proof.
  repeat (split; [reflexivity|]).
  exact (start_with_nothing_to_do idle_app 0 (set_TIMERS [None] one_timer) []
           eq_refl eq_refl eq_refl).
Defined.

(** ** Registering twice *)

Lemma dict_mem_keys {V : Type} (d : Dict.t V) (k : callable) :
  Dict.mem k d = true <-> In k (Dict.keys d).
Proof.
  rewrite dict_mem_In. unfold Dict.keys. rewrite in_map_iff. split.
  - intros (v & Hv). exists (k, v). auto.
  - intros ([k' v] & Hk & Hin). simpl in Hk. subst. eauto.
Qed.

Lemma dict_keys_app {V : Type} (a b : Dict.t V) :
  Dict.keys (a ++ b) = Dict.keys a ++ Dict.keys b.
Proof.
  unfold Dict.keys. induction a as [|[kv|] a IH]; simpl; congruence.
Qed.

Lemma dict_keys_set {V : Type} (d : Dict.t V) (k : callable) (v : V) :
  Dict.keys (Dict.set k v d)
  = if Dict.mem k d then Dict.keys d else Dict.keys d ++ [k].
Proof.
  unfold Dict.set. destruct (Dict.mem k d).
  - unfold Dict.keys. induction d as [|[[k' v']|] d IH]; simpl.
    + reflexivity.
    + destruct (callable_eqb k' k) eqn:Hk; simpl; rewrite IH; [|reflexivity].
      apply callable_eqb_eq in Hk. subst. reflexivity.
    + exact IH.
  - rewrite dict_keys_app. reflexivity.
Qed.

Lemma dict_get_set_other {V : Type} (d : Dict.t V) (k g : callable) (v : V) :
  g <> k -> Dict.get g (Dict.set k v d) = Dict.get g d.
Proof.
  intros Hne. unfold Dict.set, Dict.get.
  assert (Hgk : callable_eqb k g = false).
  { apply callable_eqb_neq. congruence. }
  destruct (Dict.mem k d).
  - induction d as [|[[k' v']|] d IH]; simpl.
    + reflexivity.
    + destruct (callable_eqb k' k) eqn:Hk; simpl.
      * apply callable_eqb_eq in Hk. subst k'. rewrite Hgk. exact IH.
      * destruct (callable_eqb k' g); [reflexivity | exact IH].
    + exact IH.
  - induction d as [|[[k' v']|] d IH]; simpl.
    + rewrite Hgk. reflexivity.
    + destruct (callable_eqb k' g); [reflexivity | exact IH].
    + exact IH.
Qed.

(** Registering a function that is already registered replaces its entry
    and adds none: after [every(interval)(fn)] the table holds
    [(interval, 0)] for [fn], so the time of its last call is forgotten; the
    entries of the other functions and the order of the keys are as before,
    with [fn] appended when it is new.  The same holds of [at] and the timer
    table.  [tick] is [every(0)]. *)
Theorem registration_replaces_entry :
  forall (w : World) (fn : callable) (interval target : time),
    Dict.get fn (INTERVALS (every interval fn w)) = Some (interval, 0) /\
    (forall g, g <> fn ->
               Dict.get g (INTERVALS (every interval fn w))
               = Dict.get g (INTERVALS w)) /\
    Dict.keys (INTERVALS (every interval fn w))
    = (if Dict.mem fn (INTERVALS w) then Dict.keys (INTERVALS w)
       else Dict.keys (INTERVALS w) ++ [fn]) /\
    Dict.get fn (TIMERS (at_ target fn w)) = Some target /\
    (forall g, g <> fn ->
               Dict.get g (TIMERS (at_ target fn w)) = Dict.get g (TIMERS w)) /\
    Dict.keys (TIMERS (at_ target fn w))
    = (if Dict.mem fn (TIMERS w) then Dict.keys (TIMERS w)
       else Dict.keys (TIMERS w) ++ [fn]) /\
    tick fn w = every 0 fn w.
Proof.
  intros w fn interval target. unfold every, at_, tick. simpl.
  repeat split.
  - apply dict_get_set.
  - intros g Hg. apply dict_get_set_other, Hg.
  - apply dict_keys_set.
  - apply dict_get_set.
  - intros g Hg. apply dict_get_set_other, Hg.
  - apply dict_keys_set.
Qed.

(** ** No callable is listed twice *)

Lemma dict_set_distinct {V : Type} (d : Dict.t V) (k : callable) (v : V) :
  distinct_keys d -> distinct_keys (Dict.set k v d).
Proof.
  unfold distinct_keys. intros H. rewrite dict_keys_set.
  destruct (Dict.mem k d) eqn:Hm; [exact H|].
  apply NoDup_app; [exact H | repeat constructor; intros [] |].
  intros x Hx [Heq|[]]. subst x.
  apply dict_mem_keys in Hx. congruence.
Qed.

Lemma dict_del_keys {V : Type} (d d' : Dict.t V) (k : callable) :
  Dict.del k d = Some d' ->
  Dict.keys d' = filter (fun g => negb (callable_eqb g k)) (Dict.keys d).
Proof.
  unfold Dict.del. destruct (Dict.mem k d); [|discriminate].
  intros H. inversion H; subst. clear H. unfold Dict.keys.
  induction d as [|[[k' v']|] d IH]; simpl.
  - reflexivity.
  - destruct (callable_eqb k' k); simpl; rewrite IH; reflexivity.
  - exact IH.
Qed.

Lemma dict_del_distinct {V : Type} (d d' : Dict.t V) (k : callable) :
  Dict.del k d = Some d' -> distinct_keys d -> distinct_keys d'.
Proof.
  unfold distinct_keys. intros Hd H. rewrite (dict_del_keys _ _ _ Hd).
  apply NoDup_filter, H.
Qed.

Lemma start_setup_tables_ok (w : World) :
  tables_ok w -> tables_ok (start_setup w).
Proof.
  intros (Hi & Ht). unfold start_setup.
  destruct (nonempty (PRESSES w)); [|split; assumption].
  split; [apply dict_set_distinct, Hi | exact Ht].
Qed.

(** No callable ever has two entries in a table.  The registration
    functions keep the keys of both tables distinct, and so does a whole run
    of [start] when the callbacks do: stamping a periodic task rewrites its
    entry in place, and a timer is only ever deleted. *)
Theorem tables_keep_distinct_keys :
  forall E : Env,
    (forall id now w,
        tables_ok w -> tables_ok (hres_world (body E id now w))) ->
    tables_ok initial /\
    (forall w fn interval target delay buttons action,
        tables_ok w ->
        tables_ok (tick fn w) /\ tables_ok (every interval fn w) /\
        tables_ok (at_ target fn w) /\ tables_ok (after E delay fn w) /\
        tables_ok (on_wrapper buttons action fn (on buttons action w)) /\
        tables_ok (stop w)) /\
    (forall fuel w,
        tables_ok w -> tables_ok (final_world (start E fuel w []))).
Proof.
  intros E Hbody. split; [split; constructor|]. split.
  - intros w fn interval target delay buttons action (Hi & Ht).
    assert (Hon : forall bs w0, INTERVALS (on bs action w0) = INTERVALS w0 /\
                                TIMERS (on bs action w0) = TIMERS w0).
    { unfold on. induction bs as [|b bs IH]; intros w0; simpl; [auto|].
      destruct (IH (on_button w0 b)) as (H1 & H2). rewrite H1, H2.
      unfold on_button. destruct (existsb _ _); auto. }
    destruct (Hon buttons w) as (Hoi & Hot).
    repeat split; simpl; try assumption;
      try (apply dict_set_distinct; assumption);
      unfold distinct_keys; rewrite ?Hoi, ?Hot; assumption.
  - intros fuel w Hw. unfold start.
    set (P := fun w w' : World => tables_ok w -> tables_ok w').
    assert (Hcall : forall f g now w0 log0,
      framed P w0 log0 (call E f g now w0 log0)).
    { intros. apply call_framed; unfold P; auto. }
    apply (main_loop_invariant E (fun w _ => tables_ok w)
             (fun w _ => tables_ok w)); auto.
    + intros f g interval last now w0 log0 H0 _ _.
      destruct (Hcall f g now w0 (EvPeriodic g now interval last :: log0))
        as (Hp & _).
      destruct (call E f g now w0 (EvPeriodic g now interval last :: log0));
        simpl in *; try (apply Hp, H0).
      destruct (Hp H0) as (H1 & H2). split; [|exact H2].
      apply dict_set_distinct, H1.
    + intros f g target now w0 log0 d (H1 & H2) _ _ Hd.
      destruct (Hcall f g now (set_TIMERS d w0) (EvTimer g now target d :: log0))
        as (Hp & _).
      assert (H0 : tables_ok (set_TIMERS d w0)).
      { split; [exact H1 | apply (dict_del_distinct _ _ _ Hd H2)]. }
      destruct (call E f g now (set_TIMERS d w0) (EvTimer g now target d :: log0));
        simpl in *; apply Hp, H0.
    + apply start_setup_tables_ok, Hw.
Qed.

Lemma tables_keep_distinct_keys_witness :
  (forall id now w,
      tables_ok w -> tables_ok (hres_world (body rearming_app id now w))) /\
  tables_ok task_and_timer /\
  tables_ok (final_world (start rearming_app 9 task_and_timer [])).
Proof.
  assert (H : forall id now w,
    tables_ok w -> tables_ok (hres_world (body rearming_app id now w))).
  { intros id now w (H1 & H2). split; [exact H1|].
    apply dict_set_distinct, H2. }
  assert (H0 : tables_ok task_and_timer).
  { split; repeat constructor; simpl; auto. }
  split; [exact H|]. split; [exact H0|].
  exact (proj2 (proj2 (tables_keep_distinct_keys rearming_app H))
           9%nat task_and_timer H0).
Defined.

(** ** A periodic task keeps the loop alive *)

Lemma dict_set_keeps_mem {V : Type} (d : Dict.t V) (k g : callable) (v : V) :
  Dict.mem g d = true -> Dict.mem g (Dict.set k v d) = true.
Proof.
  rewrite !dict_mem_keys, dict_keys_set.
  destruct (Dict.mem k d); [auto|]. intros H. apply in_or_app. auto.
Qed.

(** The loop never unregisters a periodic task, so as long as a task is
    registered that no callback removes, [start] does not return, however
    long it runs; it can only be ended by an exception.  This holds as soon as
    a binding is registered, since [start] then registers the poller. *)
Theorem periodic_task_keeps_loop_alive :
  forall (E : Env) (fn : callable) (w : World),
    Dict.mem fn (INTERVALS (start_setup w)) = true ->
    (forall id now w0,
        Dict.mem fn (INTERVALS w0) = true ->
        Dict.mem fn (INTERVALS (hres_world (body E id now w0))) = true) ->
    forall fuel, returned (start E fuel w []) = false.
Proof.
  intros E fn w Hreg Hbody fuel. unfold start.
  set (P := fun w w' : World =>
              Dict.mem fn (INTERVALS w) = true ->
              Dict.mem fn (INTERVALS w') = true).
  assert (Hcall : forall f g now w0 log0,
    framed P w0 log0 (call E f g now w0 log0)).
  { intros. apply call_framed; unfold P; auto. }
  assert (Hinv : Dict.mem fn (INTERVALS
                   (final_world (main_loop E fuel (start_setup w) []))) = true).
  { apply (main_loop_invariant E
             (fun w _ => Dict.mem fn (INTERVALS w) = true)
             (fun w _ => Dict.mem fn (INTERVALS w) = true)); auto.
    - intros f g interval last now w0 log0 H0 _ _.
      destruct (Hcall f g now w0 (EvPeriodic g now interval last :: log0))
        as (Hp & _).
      destruct (call E f g now w0 (EvPeriodic g now interval last :: log0));
        simpl in *; try (apply Hp, H0).
      apply dict_set_keeps_mem, Hp, H0.
    - intros f g target now w0 log0 d H0 _ _ _.
      destruct (Hcall f g now (set_TIMERS d w0) (EvTimer g now target d :: log0))
        as (Hp & _).
      destruct (call E f g now (set_TIMERS d w0) (EvTimer g now target d :: log0));
        simpl in *; apply Hp, H0. }
  destruct (main_loop E fuel (start_setup w) []) as [v w' log'| |] eqn:Hrun;
    try reflexivity.
  exfalso. apply main_loop_returns_only_when_idle in Hrun.
  destruct Hrun as (_ & _ & Hlen & _). simpl in Hinv.
  apply dict_mem_In in Hinv. destruct Hinv as (x & Hx).
  unfold Dict.len in Hlen. destruct (Dict.items (INTERVALS w'));
    [destruct Hx | discriminate].
Qed.

Lemma periodic_task_keeps_loop_alive_witness :
  Dict.mem (GamepadObj 0) (INTERVALS (start_setup two_chords)) = true /\
  (forall id now w0,
      Dict.mem (GamepadObj 0) (INTERVALS w0) = true ->
      Dict.mem (GamepadObj 0)
        (INTERVALS (hres_world (body idle_app id now w0))) = true) /\
  returned (start idle_app 9 two_chords []) = false.
Proof.
  assert (H : forall id now w0,
    Dict.mem (GamepadObj 0) (INTERVALS w0) = true ->
    Dict.mem (GamepadObj 0)
      (INTERVALS (hres_world (body idle_app id now w0))) = true).
  { intros id now w0 H0. exact H0. }
  split; [reflexivity|]. split; [exact H|].
  exact (periodic_task_keeps_loop_alive idle_app (GamepadObj 0) two_chords
           eq_refl H 9%nat).
Defined.

(** ** Waiting for the next wake time *)

Lemma park_exact (E : Env) (target : time) (k : nat) :
  forall (w : World) (log : list event) (fuel : nat),
    (forall j, (j < k)%nat -> monotonic E (clock_reads w + j) < target) ->
    target <= monotonic E (clock_reads w + k) ->
    (k < fuel)%nat ->
    exists sleeps,
      park E fuel target w log
      = Ok VNone (set_clock_reads (S (clock_reads w + k)) w) (sleeps ++ log) /\
      length sleeps = k /\ Forall is_positive_sleep sleeps.
Proof.
  induction k as [|k IH]; intros w log fuel Hbefore Hat Hfuel;
    destruct fuel as [|fuel]; try lia; simpl.
  - rewrite Nat.add_0_r in *.
    assert (H : (0 <? target - monotonic E (clock_reads w)) = false)
      by (apply Z.ltb_ge; lia).
    rewrite H. exists []. repeat split. constructor.
  - pose proof (Hbefore 0%nat ltac:(lia)) as H0. rewrite Nat.add_0_r in H0.
    assert (H : (0 <? target - monotonic E (clock_reads w)) = true)
      by (apply Z.ltb_lt; lia).
    rewrite H.
    destruct (IH (set_clock_reads (S (clock_reads w)) w)
                 (EvSleep (target - monotonic E (clock_reads w)) :: log) fuel)
      as (sleeps & Hp & Hl & Hs).
    + intros j Hj. simpl. rewrite <- Nat.add_succ_r. apply Hbefore. lia.
    + simpl. rewrite <- Nat.add_succ_r. exact Hat.
    + lia.
    + exists (sleeps ++ [EvSleep (target - monotonic E (clock_reads w))]).
      split; [|split].
      * rewrite Hp. simpl. rewrite <- app_assoc, Nat.add_succ_r. reflexivity.
      * rewrite length_app, Hl. simpl. lia.
      * apply Forall_app. split; [exact Hs|]. repeat constructor.
        simpl. lia.
Qed.

Lemma park_returns_late (E : Env) (target : time) (fuel : nat) :
  forall (w w' : World) (log log' : list event) (v : pyval),
    park E fuel target w log = Ok v w' log' ->
    exists k, clock_reads w' = S (clock_reads w + k) /\
              target <= monotonic E (clock_reads w + k).
Proof.
  induction fuel as [|fuel IH]; intros w w' log log' v; simpl; [discriminate|].
  destruct (0 <? target - monotonic E (clock_reads w)) eqn:Hs.
  - intros H. apply IH in H. destruct H as (k & Hk & Ht). simpl in Hk, Ht.
    exists (S k). rewrite Nat.add_succ_r. auto.
  - intros H. inversion H; subst. exists 0%nat. rewrite Nat.add_0_r.
    apply Z.ltb_ge in Hs. simpl. split; [reflexivity | lia].
Qed.

(** The inner loop never lets the cycle go on before the clock has reached
    the wake time.  If the [k]-th reading from now is the first at or after
    the target, the loop sleeps [k] times, each time for a positive duration,
    reads the clock [k + 1] times, changes nothing else and returns;
    conversely, whenever it returns, the reading it made last was at or
    after the target. *)
Theorem park_wakes_at_or_after_target :
  forall (E : Env) (target : time),
    (forall (k : nat) (w : World) (log : list event) (fuel : nat),
        (forall j, (j < k)%nat -> monotonic E (clock_reads w + j) < target) ->
        target <= monotonic E (clock_reads w + k) ->
        (k < fuel)%nat ->
        exists sleeps,
          park E fuel target w log
          = Ok VNone (set_clock_reads (S (clock_reads w + k)) w)
               (sleeps ++ log) /\
          length sleeps = k /\ Forall is_positive_sleep sleeps) /\
    (forall (fuel : nat) (w w' : World) (log log' : list event) (v : pyval),
        park E fuel target w log = Ok v w' log' ->
        exists k, clock_reads w' = S (clock_reads w + k) /\
                  target <= monotonic E (clock_reads w + k)).
Proof.
  intros E target. split.
  - intros k. apply park_exact.
  - intros fuel. apply park_returns_late.
Qed.

(** On a clock that advances 1 ms per reading, waiting for time 3 from a
    fresh world takes three sleeps and four readings. *)
Example park_until_three :
  park idle_app 5 3 initial []
  = Ok VNone (set_clock_reads 4 initial) [EvSleep 1; EvSleep 2; EvSleep 3].
Proof. reflexivity. Qed.

(** ** A cycle in which nothing is due *)

Lemma dict_first_live_none {V : Type} (es : Dict.t V) :
  Dict.items es = [] -> Dict.first_live es = None.
Proof.
  induction es as [|[[k v]|] es IH]; simpl; intros H.
  - reflexivity.
  - discriminate.
  - rewrite (IH H). reflexivity.
Qed.

Lemma dict_next_stop {V : Type} (d : Dict.t V) (used pos expected : nat) :
  Dict.items (skipn pos d) = [] ->
  Dict.len d = used ->
  Dict.next d {| Dict.di_used := used; Dict.di_pos := pos;
                 Dict.di_len := expected |} = Dict.Stop.
Proof.
  intros H Hl. unfold Dict.next. cbn [Dict.di_pos Dict.di_used Dict.di_len].
  apply Nat.eqb_eq in Hl. rewrite Hl, (dict_first_live_none _ H). reflexivity.
Qed.

Lemma intervals_loop_same_next (E : Env) (fuel : nat) (it it1 : Dict.iter)
    (now : time) (w : World) (log : list event) :
  Dict.next (INTERVALS w) it = Dict.next (INTERVALS w) it1 ->
  intervals_loop E fuel it now w log = intervals_loop E fuel it1 now w log.
Proof.
  intros H. destruct fuel as [|fuel]; simpl; [reflexivity|].
  rewrite H. reflexivity.
Qed.

Lemma intervals_loop_nothing_due (E : Env) (now : time) (w : World)
    (log : list event) :
  forall (todo : Dict.t (time * time)) (pos expected fuel : nat),
    skipn pos (INTERVALS w) = todo ->
    (Dict.len todo <= expected)%nat ->
    (Dict.len todo < fuel)%nat ->
    (forall kv, In kv (Dict.items todo) -> due now kv = false) ->
    intervals_loop E fuel
      {| Dict.di_used := Dict.len (INTERVALS w); Dict.di_pos := pos;
         Dict.di_len := expected |} now w log
    = Ok VNone w log.
Proof.
  induction todo as [|[[fn [interval last]]|] todo IH];
    intros pos expected fuel Hs He Hf Hdue.
  - destruct fuel as [|fuel]; [simpl in Hf; lia|]. cbn [intervals_loop].
    rewrite dict_next_stop; [reflexivity | rewrite Hs; reflexivity | reflexivity].
  - destruct fuel as [|fuel]; [simpl in Hf; lia|].
    destruct expected as [|expected]; [unfold Dict.len in He; simpl in He; lia|].
    cbn [intervals_loop]. rewrite (dict_next_live _ _ _ _ _ _ _ Hs eq_refl).
    pose proof (Hdue (fn, (interval, last)) (or_introl eq_refl)) as Hd.
    simpl in Hd. rewrite Hd.
    apply IH.
    + apply (skipn_tail _ _ _ _ Hs).
    + unfold Dict.len in *. simpl in He. lia.
    + unfold Dict.len in *. simpl in Hf. lia.
    + intros kv Hin. apply Hdue. simpl. auto.
  - rewrite (intervals_loop_same_next E _ _
               {| Dict.di_used := Dict.len (INTERVALS w); Dict.di_pos := S pos;
                  Dict.di_len := expected |}).
    + apply IH; auto. apply (skipn_tail _ _ _ _ Hs).
    + apply (dict_next_skips_hole _ _ _ _ _ Hs).
Qed.

Lemma timers_loop_nothing_due (E : Env) (now : time) (w : World)
    (log : list event) :
  forall (todo : Dict.t time) (pos expected fuel : nat),
    skipn pos (TIMERS w) = todo ->
    (Dict.len todo <= expected)%nat ->
    (Dict.len todo < fuel)%nat ->
    (forall fn target, In (fn, target) (Dict.items todo) -> now < target) ->
    timers_loop E fuel
      {| Dict.di_used := Dict.len (TIMERS w); Dict.di_pos := pos;
         Dict.di_len := expected |} now w log
    = Ok VNone w log.
Proof.
  induction todo as [|[[fn target]|] todo IH];
    intros pos expected fuel Hs He Hf Hdue.
  - destruct fuel as [|fuel]; [simpl in Hf; lia|]. cbn [timers_loop].
    rewrite dict_next_stop; [reflexivity | rewrite Hs; reflexivity | reflexivity].
  - destruct fuel as [|fuel]; [simpl in Hf; lia|].
    destruct expected as [|expected]; [unfold Dict.len in He; simpl in He; lia|].
    cbn [timers_loop]. rewrite (dict_next_live _ _ _ _ _ _ _ Hs eq_refl).
    pose proof (Hdue fn target (or_introl eq_refl)) as Hd.
    apply Z.leb_gt in Hd. rewrite Hd.
    apply IH.
    + apply (skipn_tail _ _ _ _ Hs).
    + unfold Dict.len in *. simpl in He. lia.
    + unfold Dict.len in *. simpl in Hf. lia.
    + intros g t Hin. apply (Hdue g t). simpl. auto.
  - rewrite (timers_loop_same_next E _ _
               {| Dict.di_used := Dict.len (TIMERS w); Dict.di_pos := S pos;
                  Dict.di_len := expected |}).
    + apply IH; auto. apply (skipn_tail _ _ _ _ Hs).
    + apply (dict_next_skips_hole _ _ _ _ _ Hs).
Qed.

(** A cycle in which nothing is due calls nobody: when the sampled time is
    before [last_called + interval] of every periodic task and before the
    deadline of every timer, both loops leave the world and the log as they
    were, and the cycle goes straight to waiting for the earliest of those
    times, which lies in the future. *)
Theorem idle_cycle_calls_nothing :
  forall (E : Env) (fuel : nat) (w : World) (log : list event),
    (0 < Dict.len (INTERVALS w) + Dict.len (TIMERS w))%nat ->
    (forall fn interval last,
        In (fn, (interval, last)) (Dict.items (INTERVALS w)) ->
        monotonic E (clock_reads w) < last + interval) ->
    (forall fn target,
        In (fn, target) (Dict.items (TIMERS w)) ->
        monotonic E (clock_reads w) < target) ->
    (Dict.len (INTERVALS w) < fuel)%nat ->
    (Dict.len (TIMERS w) < fuel)%nat ->
    exists m,
      is_minimum m (due_times w) /\
      monotonic E (clock_reads w) < m /\
      main_loop E (S fuel) w log
      = match park E fuel m (set_clock_reads (S (clock_reads w)) w) log with
        | Ok _ w4 log4 => main_loop E fuel w4 log4
        | other => other
        end.
Proof.
  intros E fuel w log Hany Hi Ht Hfi Hft.
  assert (Hguard : (Dict.len (TIMERS w) =? 0)%nat
                   && (Dict.len (INTERVALS w) =? 0)%nat = false).
  { destruct (Dict.len (TIMERS w)), (Dict.len (INTERVALS w)); simpl in *;
      try reflexivity; lia. }
  assert (Hm : exists m, next_target w = Some m /\ is_minimum m (due_times w)).
  { unfold next_target. rewrite wake_candidates_due_times.
    destruct (py_min (due_times w)) as [m|] eqn:Hm.
    - exists m. split; [reflexivity | apply py_min_minimum, Hm].
    - rewrite <- due_times_length in Hany.
      destruct (due_times w); [simpl in Hany; lia | discriminate]. }
  destruct Hm as (m & Hnt & Hmin). exists m. split; [exact Hmin|]. split.
  - destruct Hmin as (Hin & _). unfold due_times in Hin.
    apply in_app_or in Hin. destruct Hin as [Hin|Hin].
    + apply in_map_iff in Hin. destruct Hin as ([interval last] & <- & Hin).
      unfold Dict.values in Hin. apply in_map_iff in Hin.
      destruct Hin as ([fn v] & Hv & Hin). simpl in Hv. subst v.
      apply (Hi fn interval last Hin).
    + unfold Dict.values in Hin. apply in_map_iff in Hin.
      destruct Hin as ([fn v] & Hv & Hin). simpl in Hv. subst v.
      apply (Ht fn m Hin).
  - assert (Hil :
      intervals_loop E fuel
        (Dict.iter_new (INTERVALS (set_clock_reads (S (clock_reads w)) w)))
        (monotonic E (clock_reads w))
        (set_clock_reads (S (clock_reads w)) w) log
      = Ok VNone (set_clock_reads (S (clock_reads w)) w) log).
    { apply (intervals_loop_nothing_due E (monotonic E (clock_reads w))
               (set_clock_reads (S (clock_reads w)) w) log
               (INTERVALS w) 0 (Dict.len (INTERVALS w)) fuel);
        [reflexivity | simpl; lia | exact Hfi |].
      intros [fn [interval last]] Hin. simpl. apply Z.leb_gt.
      apply (Hi fn interval last Hin). }
    assert (Htl :
      timers_loop E fuel
        (Dict.iter_new (TIMERS (set_clock_reads (S (clock_reads w)) w)))
        (monotonic E (clock_reads w))
        (set_clock_reads (S (clock_reads w)) w) log
      = Ok VNone (set_clock_reads (S (clock_reads w)) w) log).
    { apply (timers_loop_nothing_due E (monotonic E (clock_reads w))
               (set_clock_reads (S (clock_reads w)) w) log
               (TIMERS w) 0 (Dict.len (TIMERS w)) fuel);
        [reflexivity | simpl; lia | exact Hft | exact Ht]. }
    cbn [main_loop]. rewrite Hguard. unfold time_monotonic.
    rewrite Hil, Htl.
    change (next_target (set_clock_reads (S (clock_reads w)) w))
      with (next_target w).
    rewrite Hnt. reflexivity.
Qed.

Lemma idle_cycle_calls_nothing_witness :
  (0 < Dict.len (INTERVALS task_and_timer)
       + Dict.len (TIMERS task_and_timer))%nat /\
  (forall fn interval last,
      In (fn, (interval, last)) (Dict.items (INTERVALS task_and_timer)) ->
      monotonic idle_app (clock_reads task_and_timer) < last + interval) /\
  (forall fn target,
      In (fn, target) (Dict.items (TIMERS task_and_timer)) ->
      monotonic idle_app (clock_reads task_and_timer) < target) /\
  exists m,
    is_minimum m (due_times task_and_timer) /\
    monotonic idle_app (clock_reads task_and_timer) < m /\
    main_loop idle_app 3 task_and_timer []
    = match park idle_app 2 m
              (set_clock_reads (S (clock_reads task_and_timer)) task_and_timer)
              [] with
      | Ok _ w4 log4 => main_loop idle_app 2 w4 log4
      | other => other
      end.
Proof.
  assert (H1 : (0 < Dict.len (INTERVALS task_and_timer)
                    + Dict.len (TIMERS task_and_timer))%nat)
    by (vm_compute; lia).
  assert (H2 : forall fn interval last,
    In (fn, (interval, last)) (Dict.items (INTERVALS task_and_timer)) ->
    monotonic idle_app (clock_reads task_and_timer) < last + interval).
  { intros fn interval last [H|[]]. inversion H. vm_compute. reflexivity. }
  assert (H3 : forall fn target,
    In (fn, target) (Dict.items (TIMERS task_and_timer)) ->
    monotonic idle_app (clock_reads task_and_timer) < target).
  { intros fn target [H|[]]. inversion H. vm_compute. reflexivity. }
  assert (H4 : (Dict.len (INTERVALS task_and_timer) < 2)%nat)
    by (vm_compute; lia).
  assert (H5 : (Dict.len (TIMERS task_and_timer) < 2)%nat)
    by (vm_compute; lia).
  split; [exact H1|]. split; [exact H2|]. split; [exact H3|].
  exact (idle_cycle_calls_nothing idle_app 2 task_and_timer [] H1 H2 H3 H4 H5).
Defined.

(** ** Where an exception comes from *)

Lemma dispatch_raise (invoke : invoker) (R : exn -> Prop) :
  (forall fn now w log e w' log',
      invoke fn now w log = Raise e w' log' -> R e) ->
  forall fuel i now fd fu w log e w' log',
    dispatch invoke fuel i now fd fu w log = Raise e w' log' -> R e.
Proof.
  intros Hinv fuel.
  induction fuel as [|fuel IH]; intros i now fd fu w log e w' log'; simpl;
    [discriminate|].
  destruct (nth_error (PRESSES w) i) as [[[fn chord] action]|];
    [|discriminate].
  destruct (binding_fires chord action fd fu).
  - destruct (invoke fn now w (EvButton fn now :: log))
      as [v w1 l1|e1 w1 l1|w1 l1] eqn:Hc.
    + destruct (is_PROPOGATE v); [apply IH | discriminate].
    + intros H. inversion H; subst. apply (Hinv _ _ _ _ _ _ _ Hc).
    + discriminate.
  - simpl. apply IH.
Qed.

Lemma Gamepad_call_raise (E : Env) (invoke : invoker) (R : exn -> Prop) :
  (forall fn now w log e w' log',
      invoke fn now w log = Raise e w' log' -> R e) ->
  forall fuel addr now w log e w' log',
    Gamepad_call E invoke fuel addr now w log = Raise e w' log' ->
    R e \/ e = ReferenceError.
Proof.
  intros Hinv fuel addr now w log e w' log'. unfold Gamepad_call.
  destruct (nth_error (heap w) addr) as [gp|].
  - destruct (edge_detect_cases (read_pins E w) gp) as (held & ev & He & _).
    rewrite He. destruct ev as [[fd fu]|]; [|discriminate].
    intros H. left. apply (dispatch_raise invoke R Hinv _ _ _ _ _ _ _ _ _ _ H).
  - intros H. inversion H. auto.
Qed.

Lemma call_raise (E : Env) (fuel : nat) :
  forall fn now w log e w' log',
    call E fuel fn now w log = Raise e w' log' ->
    raised_by E e \/ e = ReferenceError.
Proof.
  induction fuel as [|fuel IH]; intros [id|addr] now w log e w' log'; simpl.
  - destruct (body E id now w) as [w1 v|e1 w1] eqn:Hb; simpl; [discriminate|].
    intros H. inversion H; subst. left. exists id, now, w, w'. exact Hb.
  - discriminate.
  - destruct (body E id now w) as [w1 v|e1 w1] eqn:Hb; simpl; [discriminate|].
    intros H. inversion H; subst. left. exists id, now, w, w'. exact Hb.
  - intros H.
    apply (Gamepad_call_raise E (call E fuel)
             (fun e => raised_by E e \/ e = ReferenceError) IH) in H.
    tauto.
Qed.

Lemma intervals_loop_raise (E : Env) (fuel : nat) :
  forall it now w log e w' log',
    intervals_loop E fuel it now w log = Raise e w' log' ->
    raised_by E e \/ e = ReferenceError \/ e = RuntimeError.
Proof.
  induction fuel as [|fuel IH]; intros it now w log e w' log'; simpl;
    [discriminate|].
  destruct (Dict.next (INTERVALS w) it) as [fn [interval last] it'| |].
  - destruct (last + interval <=? now); [|apply IH].
    destruct (call E fuel fn now w (EvPeriodic fn now interval last :: log))
      as [v w1 l1|e1 w1 l1|w1 l1] eqn:Hc.
    + apply IH.
    + intros H. inversion H; subst. apply call_raise in Hc. tauto.
    + discriminate.
  - discriminate.
  - intros H. inversion H. auto.
Qed.

Lemma timers_loop_raise (E : Env) (fuel : nat) :
  forall it now w log e w' log',
    timers_loop E fuel it now w log = Raise e w' log' ->
    raised_by E e \/ e = ReferenceError \/ e = RuntimeError.
Proof.
  induction fuel as [|fuel IH]; intros it now w log e w' log'; simpl;
    [discriminate|].
  destruct (Dict.next (TIMERS w) it) as [fn target it'| |] eqn:Hn.
  - destruct (target <=? now); [|apply IH].
    apply dict_next_yield in Hn. destruct Hn as (Hin & _).
    assert (Hmem : Dict.mem fn (TIMERS w) = true)
      by (apply dict_mem_In; eauto).
    unfold Dict.del. rewrite Hmem.
    destruct (call E fuel fn now _ (EvTimer fn now target _ :: log))
      as [v w1 l1|e1 w1 l1|w1 l1] eqn:Hc.
    + apply IH.
    + intros H. inversion H; subst. apply call_raise in Hc. tauto.
    + discriminate.
  - discriminate.
  - intros H. inversion H. auto.
Qed.

Lemma park_never_raises (E : Env) (fuel : nat) :
  forall target w log e w' log',
    park E fuel target w log = Raise e w' log' -> False.
Proof.
  induction fuel as [|fuel IH]; intros target w log e w' log'; simpl;
    [discriminate|].
  destruct (0 <? target - monotonic E (clock_reads w));
    [apply IH | discriminate].
Qed.

Lemma next_target_none (w : World) :
  next_target w = None ->
  Dict.len (INTERVALS w) = 0%nat /\ Dict.len (TIMERS w) = 0%nat.
Proof.
  unfold next_target. rewrite wake_candidates_due_times. intros H.
  pose proof (due_times_length w) as Hl.
  destruct (due_times w); [simpl in Hl; lia | discriminate].
Qed.

(** An exception that ends [start] is one that a callback raised, or the
    [RuntimeError] of an iterator whose table changed under it, or the
    [ValueError] of [min] when both tables are empty at the end of a cycle
    (or the error of a call through an address that holds no [Gamepad]
    instance).  In particular [del TIMERS[fn]] never raises [KeyError] and
    [list.remove] in the edge detector never raises [ValueError]: the loop
    adds no [KeyError] of its own. *)
Theorem start_exception_origin :
  forall (E : Env) (fuel : nat) (w w' : World) (log log' : list event)
         (e : exn),
    start E fuel w log = Raise e w' log' ->
    raised_by E e \/
    e = RuntimeError \/
    e = ReferenceError \/
    (e = ValueError /\
     Dict.len (INTERVALS w') = 0%nat /\ Dict.len (TIMERS w') = 0%nat).
Proof.
  intros E fuel w w' log log' e. unfold start.
  generalize (start_setup w). clear w. revert log.
  induction fuel as [|fuel IH]; intros log w; simpl; [discriminate|].
  destruct ((Dict.len (TIMERS w) =? 0)%nat && (Dict.len (INTERVALS w) =? 0)%nat);
    [discriminate|].
  destruct (intervals_loop E fuel _ _ _ log) as [v2 w2 l2|e2 w2 l2|w2 l2] eqn:H1.
  - destruct (timers_loop E fuel _ _ w2 l2) as [v3 w3 l3|e3 w3 l3|w3 l3] eqn:H2.
    + destruct (next_target w3) as [target|] eqn:Hnt.
      * destruct (park E fuel target w3 l3) as [v4 w4 l4|e4 w4 l4|w4 l4] eqn:H3.
        -- apply IH.
        -- exfalso. apply (park_never_raises _ _ _ _ _ _ _ _ H3).
        -- discriminate.
      * intros H. inversion H; subst. right. right. right.
        split; [reflexivity | apply next_target_none, Hnt].
    + intros H. inversion H; subst. apply timers_loop_raise in H2. tauto.
    + discriminate.
  - intros H. inversion H; subst. apply intervals_loop_raise in H1. tauto.
  - discriminate.
Qed.

Lemma start_exception_origin_witness :
  start faulting_app 4 one_timer []
  = Raise (AppError 1) (set_clock_reads 1 (set_TIMERS [None] one_timer))
      [EvTimer (Fn 0) 0 0 [None]] /\
  (raised_by faulting_app (AppError 1) \/
   AppError 1 = RuntimeError \/
   AppError 1 = ReferenceError \/
   (AppError 1 = ValueError /\
    Dict.len (INTERVALS (set_clock_reads 1 (set_TIMERS [None] one_timer)))
    = 0%nat /\
    Dict.len (TIMERS (set_clock_reads 1 (set_TIMERS [None] one_timer)))
    = 0%nat)).
Proof.
  split; [reflexivity|].
  exact (start_exception_origin faulting_app 4 one_timer
           (set_clock_reads 1 (set_TIMERS [None] one_timer)) []
           [EvTimer (Fn 0) 0 0 [None]] (AppError 1) eq_refl).
Defined.

(** ** All the due tasks of a cycle *)

Lemma call_Fn (E : Env) (fuel id : nat) (now : time) (w : World)
    (log : list event) :
  call E fuel (Fn id) now w log = lift (body E id now w) log.
Proof. destruct fuel; reflexivity. Qed.

Lemma skipn_app_exact {A : Type} (a b : list A) :
  skipn (length a) (a ++ b) = b.
Proof. induction a as [|x a IH]; simpl; auto. Qed.

Lemma dict_map_not_key {V : Type} (a : Dict.t V) (k : callable) (v : V) :
  ~ In k (Dict.keys a) ->
  map (fun e => if Dict.is_key k e then Some (k, v) else e) a = a.
Proof.
  unfold Dict.keys. induction a as [|[[k' v']|] a IH]; simpl; intros H.
  - reflexivity.
  - destruct (callable_eqb k' k) eqn:Hk.
    + apply callable_eqb_eq in Hk. subst. exfalso. auto.
    + rewrite IH by auto. reflexivity.
  - rewrite IH by auto. reflexivity.
Qed.

Lemma dict_set_in_place {V : Type} (a b : Dict.t V) (k : callable) (v0 v : V) :
  ~ In k (Dict.keys a) -> ~ In k (Dict.keys b) ->
  Dict.set k v (a ++ Some (k, v0) :: b) = a ++ Some (k, v) :: b.
Proof.
  intros Ha Hb. unfold Dict.set.
  assert (Hm : Dict.mem k (a ++ Some (k, v0) :: b) = true).
  { unfold Dict.mem. rewrite existsb_app. simpl.
    rewrite callable_eqb_refl. apply orb_true_r. }
  rewrite Hm, map_app. simpl. rewrite callable_eqb_refl.
  rewrite !dict_map_not_key by assumption. reflexivity.
Qed.

Lemma intervals_loop_fires_all (E : Env) (now : time) :
  (forall id t w0,
      exists v w1, body E id t w0 = HOk w1 v /\ INTERVALS w1 = INTERVALS w0) ->
  forall (todo done : Dict.t (time * time)) (fuel : nat) (w : World)
         (log : list event),
    INTERVALS w = done ++ todo ->
    NoDup (Dict.keys (done ++ todo)) ->
    (forall g, In g (Dict.keys todo) -> exists id, g = Fn id) ->
    (Dict.len todo < fuel)%nat ->
    exists w',
      intervals_loop E fuel
        {| Dict.di_used := Dict.len (done ++ todo);
           Dict.di_pos := length done;
           Dict.di_len := Dict.len todo |} now w log
      = Ok VNone w'
           (rev (map (periodic_event now)
                     (filter (due now) (Dict.items todo))) ++ log) /\
      INTERVALS w' = done ++ map (stamp now) todo.
Proof.
  intros Hbody todo.
  induction todo as [|[[fn [interval last]]|] todo IH];
    intros done fuel w log Hw Hnd Hfn Hf.
  - destruct fuel as [|fuel]; [simpl in Hf; lia|]. exists w.
    cbn [intervals_loop]. rewrite dict_next_stop.
    + simpl. rewrite Hw. auto.
    + rewrite Hw, skipn_app_exact. reflexivity.
    + rewrite Hw. reflexivity.
  - destruct fuel as [|fuel]; [simpl in Hf; lia|].
    assert (Hs : skipn (length done) (INTERVALS w)
                 = Some (fn, (interval, last)) :: todo)
      by (rewrite Hw; apply skipn_app_exact).
    assert (Hlen : Dict.len (INTERVALS w)
                   = Dict.len (done ++ Some (fn, (interval, last)) :: todo))
      by (rewrite Hw; reflexivity).
    change (Dict.len (Some (fn, (interval, last)) :: todo))
      with (S (Dict.len todo)).
    cbn [intervals_loop]. rewrite (dict_next_live _ _ _ _ _ _ _ Hs Hlen).
    assert (Hkeys : Dict.keys (done ++ Some (fn, (interval, last)) :: todo)
                    = Dict.keys done ++ fn :: Dict.keys todo)
      by (rewrite dict_keys_app; reflexivity).
    assert (Hlens : forall v,
      Dict.len (done ++ Some (fn, v) :: todo)
      = Dict.len ((done ++ [Some (fn, (interval, last))]) ++ todo)).
    { intros v. rewrite <- app_assoc, !dict_len_app. reflexivity. }
    assert (Hpos : S (length done)
                   = length (done ++ [Some (fn, (interval, last))])).
    { rewrite length_app. simpl. lia. }
    assert (Htodo : forall g, In g (Dict.keys todo) -> exists id, g = Fn id).
    { intros g Hg. apply Hfn. right. exact Hg. }
    assert (Hf' : (Dict.len todo < fuel)%nat).
    { unfold Dict.len in *. simpl in Hf. lia. }
    destruct (last + interval <=? now) eqn:Hd.
    + destruct (Hfn fn (or_introl eq_refl)) as (id & ->).
      destruct (Hbody id now w) as (v & w1 & Hb & Hi1).
      rewrite call_Fn, Hb. cbn [lift].
      pose proof Hnd as Hnd0.
      rewrite Hkeys in Hnd. apply NoDup_remove_2 in Hnd.
      assert (Hset : Dict.set (Fn id) (interval, now) (INTERVALS w1)
                     = done ++ Some (Fn id, (interval, now)) :: todo).
      { rewrite Hi1, Hw. apply dict_set_in_place.
        - intros Hin. apply Hnd, in_or_app. auto.
        - intros Hin. apply Hnd, in_or_app. auto. }
      rewrite Hset.
      destruct (IH (done ++ [Some (Fn id, (interval, now))]) fuel
                   (set_INTERVALS (done ++ Some (Fn id, (interval, now)) :: todo)
                                  w1)
                   (EvPeriodic (Fn id) now interval last :: log))
        as (w' & Hrun & Hint).
      * simpl. rewrite <- app_assoc. reflexivity.
      * rewrite <- app_assoc. cbn [app]. rewrite dict_keys_app.
        change (Dict.keys (Some (Fn id, (interval, now)) :: todo))
          with (Fn id :: Dict.keys todo).
        rewrite <- Hkeys. exact Hnd0.
      * exact Htodo.
      * exact Hf'.
      * exists w'. split.
        -- rewrite <- app_assoc in Hrun. cbn [app] in Hrun.
           rewrite length_app in Hrun. cbn [length] in Hrun.
           rewrite Nat.add_1_r in Hrun.
           replace (Dict.len (done ++ Some (Fn id, (interval, now)) :: todo))
             with (Dict.len (done ++ Some (Fn id, (interval, last)) :: todo))
             in Hrun by (rewrite !dict_len_app; reflexivity).
           rewrite Hrun. simpl. rewrite Hd. simpl.
           rewrite <- app_assoc. reflexivity.
        -- rewrite Hint, <- app_assoc. simpl. rewrite Hd. reflexivity.
    + destruct (IH (done ++ [Some (fn, (interval, last))]) fuel w log)
        as (w' & Hrun & Hint).
      * rewrite <- app_assoc. exact Hw.
      * rewrite <- app_assoc. exact Hnd.
      * exact Htodo.
      * exact Hf'.
      * exists w'. split.
        -- rewrite <- app_assoc in Hrun. cbn [app] in Hrun.
           rewrite length_app in Hrun. cbn [length] in Hrun.
           rewrite Nat.add_1_r in Hrun.
           rewrite Hrun. simpl. rewrite Hd. reflexivity.
        -- rewrite Hint, <- app_assoc. simpl. rewrite Hd. reflexivity.
  - assert (Hs : skipn (length done) (INTERVALS w) = None :: todo)
      by (rewrite Hw; apply skipn_app_exact).
    destruct (IH (done ++ [None]) fuel w log) as (w' & Hrun & Hint).
    + rewrite <- app_assoc. exact Hw.
    + rewrite <- app_assoc. exact Hnd.
    + intros g Hg. apply Hfn. exact Hg.
    + exact Hf.
    + exists w'. split.
      * rewrite <- app_assoc in Hrun. cbn [app] in Hrun.
        rewrite length_app in Hrun. cbn [length] in Hrun.
        rewrite Nat.add_1_r in Hrun.
        change (Dict.len (None :: todo)) with (Dict.len todo).
        rewrite (intervals_loop_same_next E _ _
                   {| Dict.di_used := Dict.len (done ++ None :: todo);
                      Dict.di_pos := S (length done);
                      Dict.di_len := Dict.len todo |}).
        -- exact Hrun.
        -- rewrite <- Hw. apply (dict_next_skips_hole _ _ _ _ _ Hs).
      * rewrite Hint, <- app_assoc. reflexivity.
Qed.

(** In one cycle every due periodic task is called, not only the first:
    when the tasks are application functions that return and leave
    [INTERVALS] alone, the loop over [INTERVALS] calls exactly the entries
    that are due at the sampled time, once each, in the order of
    registration, stamps each of them with [now] and leaves the other entries
    as they were. *)
Theorem due_tasks_all_called_in_order :
  forall (E : Env) (now : time) (fuel : nat) (w : World) (log : list event),
    (forall id t w0,
        exists v w1, body E id t w0 = HOk w1 v /\ INTERVALS w1 = INTERVALS w0) ->
    distinct_keys (INTERVALS w) ->
    (forall g, In g (Dict.keys (INTERVALS w)) -> exists id, g = Fn id) ->
    (Dict.len (INTERVALS w) < fuel)%nat ->
    exists w',
      intervals_loop E fuel (Dict.iter_new (INTERVALS w)) now w log
      = Ok VNone w'
           (rev (map (periodic_event now)
                     (filter (due now) (Dict.items (INTERVALS w)))) ++ log) /\
      INTERVALS w' = map (stamp now) (INTERVALS w).
Proof.
  intros E now fuel w log Hbody Hnd Hfn Hf.
  apply (intervals_loop_fires_all E now Hbody (INTERVALS w) [] fuel w log);
    auto.
Qed.

Lemma due_tasks_all_called_witness :
  (forall id t w0,
      exists v w1,
        body idle_app id t w0 = HOk w1 v /\ INTERVALS w1 = INTERVALS w0) /\
  distinct_keys (INTERVALS two_tasks) /\
  (forall g, In g (Dict.keys (INTERVALS two_tasks)) -> exists id, g = Fn id) /\
  (Dict.len (INTERVALS two_tasks) < 3)%nat /\
  filter (due 7) (Dict.items (INTERVALS two_tasks))
  = [(Fn 0, (0, 0)); (Fn 1, (5, 0))] /\
  exists w',
    intervals_loop idle_app 3 (Dict.iter_new (INTERVALS two_tasks)) 7
      two_tasks []
    = Ok VNone w'
         (rev (map (periodic_event 7)
                   (filter (due 7) (Dict.items (INTERVALS two_tasks)))) ++ []) /\
    INTERVALS w' = map (stamp 7) (INTERVALS two_tasks).
Proof.
  assert (H1 : forall id t w0,
    exists v w1,
      body idle_app id t w0 = HOk w1 v /\ INTERVALS w1 = INTERVALS w0).
  { intros id t w0. exists VNone, w0. split; reflexivity. }
  assert (H2 : distinct_keys (INTERVALS two_tasks)).
  { unfold distinct_keys. simpl.
    constructor; [intros [H|[]]; discriminate H|].
    constructor; [intros []|constructor]. }
  assert (H3 : forall g, In g (Dict.keys (INTERVALS two_tasks)) ->
                         exists id, g = Fn id).
  { intros g Hg. simpl in Hg. destruct Hg as [H|[H|[]]]; subst; eauto. }
  assert (H4 : (Dict.len (INTERVALS two_tasks) < 3)%nat) by (vm_compute; lia).
  split; [exact H1|]. split; [exact H2|]. split; [exact H3|].
  split; [exact H4|]. split; [reflexivity|].
  exact (due_tasks_all_called_in_order idle_app 7 3 two_tasks [] H1 H2 H3 H4).
Defined.

(** ** A tick task turns the loop into a busy loop *)

Lemma clock_never_back (E : Env) :
  (forall k, monotonic E k <= monotonic E (S k)) ->
  forall a b, (a <= b)%nat -> monotonic E a <= monotonic E b.
Proof.
  intros Hm a b Hab. induction Hab as [|b _ IH]; [lia|].
  specialize (Hm b). lia.
Qed.

Lemma sleeps_buttons (l log : list event) :
  Forall is_button l -> sleeps (l ++ log) = sleeps log.
Proof.
  induction 1 as [|ev l Hev _ IH]; simpl; [reflexivity|].
  destruct ev; simpl in Hev; try contradiction. exact IH.
Qed.

Lemma call_keeps_entry (E : Env) (fn : callable) :
  (forall id now w, keeps_entry fn w (hres_world (body E id now w))) ->
  forall fuel g now w log,
    framed (keeps_entry fn) w log (call E fuel g now w log).
Proof.
  intros Hbody fuel g now w log. apply call_framed.
  - intros w0. repeat split; auto.
  - intros a b c (H1 & H2 & H3) (H4 & H5 & H6). repeat split; auto. lia.
  - exact Hbody.
  - intros w0. repeat split; auto.
  - intros addr gp w0. repeat split; auto.
Qed.

Lemma tick_entry_stamped (fn g : callable) (now interval last : time)
    (w w1 : World) :
  tick_entry fn now w ->
  In (g, (interval, last)) (Dict.items (INTERVALS w)) ->
  keeps_entry fn w w1 ->
  tick_entry fn now
    (set_INTERVALS (Dict.set g (interval, now) (INTERVALS w1)) w1).
Proof.
  intros (Hmem & Hent) Hin (_ & Hk & Hsame). simpl.
  destruct (callable_eqb g fn) eqn:Hg.
  - apply callable_eqb_eq in Hg. subst g.
    destruct (Hent interval last Hin) as (Hi & _). subst interval.
    split; [apply dict_set_mem|].
    intros i l H. apply dict_set_items_same in H. inversion H; subst.
    split; [reflexivity | lia].
  - apply callable_eqb_neq in Hg. split.
    + apply dict_set_keeps_mem, Hk, Hmem.
    + intros i l H. apply dict_set_items_other in H; [|congruence].
      apply Hent, Hsame, H.
Qed.

Lemma intervals_loop_tick (E : Env) (fn : callable) (now : time) (c : nat) :
  (forall id t w, keeps_entry fn w (hres_world (body E id t w))) ->
  forall fuel it w log,
    tick_entry fn now w -> (c <= clock_reads w)%nat -> sleeps log = [] ->
    ends_well
      (fun w' log' => tick_entry fn now w' /\ (c <= clock_reads w')%nat /\
                      sleeps log' = [])
      (fun _ log' => sleeps log' = [])
      (intervals_loop E fuel it now w log).
Proof.
  intros Hbody fuel. induction fuel as [|fuel IH]; intros it w log Ht Hc Hs;
    simpl; [exact Hs|].
  destruct (Dict.next (INTERVALS w) it) as [g [interval last] it'| |] eqn:Hn;
    simpl; auto.
  apply dict_next_yield in Hn. destruct Hn as (Hin & _).
  destruct (last + interval <=? now); [|apply IH; assumption].
  destruct (call_keeps_entry E fn Hbody fuel g now w
              (EvPeriodic g now interval last :: log))
    as (Hk & l & Hl & Hb).
  assert (Hs' : sleeps (final_log (call E fuel g now w
                                    (EvPeriodic g now interval last :: log)))
                = []).
  { rewrite Hl, sleeps_buttons by exact Hb. exact Hs. }
  destruct (call E fuel g now w (EvPeriodic g now interval last :: log))
    as [v w1 log1|e w1 log1|w1 log1]; simpl in *; try exact Hs'.
  apply IH; [|destruct Hk as (Hk & _); simpl; lia | exact Hs'].
  apply (tick_entry_stamped fn g now interval last w w1); assumption.
Qed.

Lemma timers_loop_tick (E : Env) (fn : callable) (now : time) (c : nat) :
  (forall id t w, keeps_entry fn w (hres_world (body E id t w))) ->
  forall fuel it w log,
    tick_entry fn now w -> (c <= clock_reads w)%nat -> sleeps log = [] ->
    ends_well
      (fun w' log' => tick_entry fn now w' /\ (c <= clock_reads w')%nat /\
                      sleeps log' = [])
      (fun _ log' => sleeps log' = [])
      (timers_loop E fuel it now w log).
Proof.
  intros Hbody fuel. induction fuel as [|fuel IH]; intros it w log Ht Hc Hs;
    simpl; [exact Hs|].
  destruct (Dict.next (TIMERS w) it) as [g target it'| |] eqn:Hn;
    simpl; auto.
  destruct (target <=? now); [|apply IH; assumption].
  destruct (Dict.del g (TIMERS w)) as [d|]; [|exact Hs].
  destruct (call_keeps_entry E fn Hbody fuel g now (set_TIMERS d w)
              (EvTimer g now target d :: log))
    as (Hk & l & Hl & Hb).
  assert (Hs' : sleeps (final_log (call E fuel g now (set_TIMERS d w)
                                    (EvTimer g now target d :: log)))
                = []).
  { rewrite Hl, sleeps_buttons by exact Hb. exact Hs. }
  destruct (call E fuel g now (set_TIMERS d w) (EvTimer g now target d :: log))
    as [v w1 log1|e w1 log1|w1 log1]; simpl in *; try exact Hs'.
  destruct Hk as (Hk1 & Hk2 & Hk3). destruct Ht as (Hmem & Hent).
  cbn [set_TIMERS clock_reads INTERVALS] in Hk1, Hk2, Hk3.
  apply IH; [|lia | exact Hs'].
  split; [apply Hk2, Hmem|]. intros i l0 H. apply Hent, Hk3, H.
Qed.

Lemma tick_entry_wakes_at_once (fn : callable) (now target : time) (w : World) :
  tick_entry fn now w -> next_target w = Some target -> target <= now.
Proof.
  intros (Hmem & Hent) Hnt. unfold next_target in Hnt.
  apply py_min_minimum in Hnt. rewrite wake_candidates_due_times in Hnt.
  destruct Hnt as (_ & Hmin).
  apply dict_mem_In in Hmem. destruct Hmem as ([interval last] & Hin).
  destruct (Hent interval last Hin) as (Hi & Hl). subst interval.
  assert (Hd : In (last + 0) (due_times w)).
  { unfold due_times. apply in_or_app. left.
    apply (in_map (fun task : time * time =>
                     let (interval, last_fired) := task in
                     last_fired + interval) _ (0, last)).
    unfold Dict.values. apply (in_map snd _ (fn, (0, last))). exact Hin. }
  specialize (Hmin _ Hd). lia.
Qed.

Lemma main_loop_tick (E : Env) (fn : callable) :
  (forall k, monotonic E k <= monotonic E (S k)) ->
  (forall id t w, keeps_entry fn w (hres_world (body E id t w))) ->
  forall fuel w log,
    tick_entry fn (monotonic E (clock_reads w)) w ->
    sleeps log = [] ->
    sleeps (final_log (main_loop E fuel w log)) = [].
Proof.
  intros Hclock Hbody fuel.
  induction fuel as [|fuel IH]; intros w log Ht Hs; simpl; [exact Hs|].
  destruct ((Dict.len (TIMERS w) =? 0)%nat && (Dict.len (INTERVALS w) =? 0)%nat);
    [simpl; exact Hs|].
  pose proof (intervals_loop_tick E fn (monotonic E (clock_reads w))
                (S (clock_reads w)) Hbody fuel
                (Dict.iter_new (INTERVALS (set_clock_reads (S (clock_reads w)) w)))
                (set_clock_reads (S (clock_reads w)) w) log Ht
                (Nat.le_refl _) Hs) as H1.
  destruct (intervals_loop E fuel _ _ _ log) as [v2 w2 l2|e2 w2 l2|w2 l2];
    simpl in *; try exact H1.
  destruct H1 as (Ht2 & Hc2 & Hs2).
  pose proof (timers_loop_tick E fn (monotonic E (clock_reads w))
                (S (clock_reads w)) Hbody fuel (Dict.iter_new (TIMERS w2))
                w2 l2 Ht2 Hc2 Hs2) as H2.
  destruct (timers_loop E fuel _ _ w2 l2) as [v3 w3 l3|e3 w3 l3|w3 l3];
    simpl in *; try exact H2.
  destruct H2 as (Ht3 & Hc3 & Hs3).
  destruct (next_target w3) as [target|] eqn:Hnt; [|exact Hs3].
  pose proof (tick_entry_wakes_at_once fn _ target w3 Ht3 Hnt) as Hearly.
  pose proof (clock_never_back E Hclock (clock_reads w) (clock_reads w3)) as Hm.
  destruct fuel as [|fuel']; [exact Hs3|].
  cbn [park time_monotonic].
  assert (Hno : (0 <? target - monotonic E (clock_reads w3)) = false).
  { apply Z.ltb_ge. assert (monotonic E (clock_reads w) <=
                            monotonic E (clock_reads w3)) by (apply Hm; lia).
    lia. }
  rewrite Hno. apply IH; [|exact Hs3].
  destruct Ht3 as (Hmem & Hent). split; [exact Hmem|].
  intros i l H. destruct (Hent i l H) as (Hi & Hl). split; [exact Hi|].
  simpl.
  pose proof (clock_never_back E Hclock (clock_reads w)
                (S (clock_reads w3))) as Hm'.
  assert (monotonic E (clock_reads w) <= monotonic E (S (clock_reads w3)))
    by (apply Hm'; lia).
  lia.
Qed.

(** With a task of interval 0 registered, as [tick] registers it, [start]
    never calls [time.sleep]: the wake time of every cycle is at most the
    time at which the task was last called, so the inner loop ends at its
    first reading of the clock and the next cycle begins at once.  This holds
    of every run, however it ends, on a clock that never goes back and as
    long as the callbacks leave the entry of the task alone. *)
Theorem tick_task_means_no_sleep :
  forall (E : Env) (id : nat) (w : World),
    (forall k, monotonic E k <= monotonic E (S k)) ->
    (forall i t w0, keeps_entry (Fn id) w0 (hres_world (body E i t w0))) ->
    tick_entry (Fn id) (monotonic E (clock_reads w)) w ->
    forall fuel, sleeps (final_log (start E fuel w [])) = [].
Proof.
  intros E id w Hclock Hbody (Hmem & Hent) fuel. unfold start.
  apply main_loop_tick with (fn := Fn id); auto.
  unfold start_setup. destruct (nonempty (PRESSES w)); [|split; assumption].
  simpl. split.
  - apply dict_set_keeps_mem, Hmem.
  - intros i l H. apply dict_set_items_other in H; [|discriminate].
    apply Hent, H.
Qed.

Lemma tick_task_means_no_sleep_witness :
  (forall k, monotonic idle_app k <= monotonic idle_app (S k)) /\
  (forall i t w0,
      keeps_entry (Fn 0) w0 (hres_world (body idle_app i t w0))) /\
  tick_entry (Fn 0) (monotonic idle_app (clock_reads two_tasks)) two_tasks /\
  sleeps (final_log (start idle_app 12 two_tasks [])) = [].
Proof.
  assert (H1 : forall k, monotonic idle_app k <= monotonic idle_app (S k))
    by (intros k; simpl; unfold ms_clock; lia).
  assert (H2 : forall i t w0,
    keeps_entry (Fn 0) w0 (hres_world (body idle_app i t w0)))
    by (intros i t w0; simpl; repeat split; auto).
  assert (H3 : tick_entry (Fn 0) (monotonic idle_app (clock_reads two_tasks))
                 two_tasks).
  { split; [reflexivity|]. intros i l H. simpl in H.
    destruct H as [H|[H|[]]]; inversion H; subst. simpl. split; reflexivity. }
  split; [exact H1|]. split; [exact H2|]. split; [exact H3|].
  exact (tick_task_means_no_sleep idle_app 0 two_tasks H1 H2 H3 12).
Defined.

(** ** Every call of start adds a poller *)






(** ** The first call of a periodic task *)

(** [every(interval)(fn)] counts from the zero of the clock, not from the
    time of the registration: in the cycle that follows, [fn] is called if
    and only if the sampled time is at least [interval], and it is called
    for the entry [(interval, 0)] whatever entry [fn] had before, so
    registering a running task again forgets when it was last called. *)
Theorem first_call_counts_from_clock_zero :
  forall (E : Env) (now interval : time) (id fuel : nat) (w : World)
         (log : list event),
    (forall i t w0,
        exists v w1, body E i t w0 = HOk w1 v /\ INTERVALS w1 = INTERVALS w0) ->
    distinct_keys (INTERVALS w) ->
    (forall g, In g (Dict.keys (INTERVALS w)) -> exists i, g = Fn i) ->
    (S (Dict.len (INTERVALS w)) < fuel)%nat ->
    exists w' l,
      intervals_loop E fuel
        (Dict.iter_new (INTERVALS (every interval (Fn id) w))) now
        (every interval (Fn id) w) log
      = Ok VNone w' (l ++ log) /\
      (In (EvPeriodic (Fn id) now interval 0) l <-> interval <= now) /\
      (forall i last,
          In (EvPeriodic (Fn id) now i last) l -> i = interval /\ last = 0).
Proof.
  intros E now interval id fuel w log Hbody Hnd Hfn Hf.
  set (d := INTERVALS (every interval (Fn id) w)).
  assert (Hd : d = Dict.set (Fn id) (interval, 0) (INTERVALS w)) by reflexivity.
  assert (Hkeys : Dict.keys d
                  = if Dict.mem (Fn id) (INTERVALS w) then Dict.keys (INTERVALS w)
                    else Dict.keys (INTERVALS w) ++ [Fn id])
    by (rewrite Hd; apply dict_keys_set).
  assert (Hnd' : NoDup (Dict.keys ([] ++ d)))
    by (simpl; rewrite Hd; apply dict_set_distinct, Hnd).
  assert (Hfn' : forall g, In g (Dict.keys d) -> exists i, g = Fn i).
  { intros g Hg. rewrite Hkeys in Hg.
    destruct (Dict.mem (Fn id) (INTERVALS w)); [apply Hfn, Hg|].
    apply in_app_or in Hg. destruct Hg as [Hg|[Hg|[]]]; [apply Hfn, Hg|].
    exists id. auto. }
  assert (Hlen : (Dict.len d < fuel)%nat).
  { unfold Dict.len. unfold Dict.len in Hf.
    assert (Hl : length (Dict.keys d) = length (Dict.items d))
      by (unfold Dict.keys; apply length_map).
    assert (Hl0 : length (Dict.keys (INTERVALS w))
                  = length (Dict.items (INTERVALS w)))
      by (unfold Dict.keys; apply length_map).
    rewrite Hkeys in Hl.
    destruct (Dict.mem (Fn id) (INTERVALS w));
      [|rewrite length_app in Hl; simpl in Hl]; lia. }
  destruct (intervals_loop_fires_all E now Hbody d [] fuel
              (every interval (Fn id) w) log eq_refl Hnd' Hfn' Hlen)
    as (w' & Hrun & _).
  exists w', (rev (map (periodic_event now) (filter (due now) (Dict.items d)))).
  split; [exact Hrun|].
  assert (Hmem : exists v, In (Fn id, v) (Dict.items d))
    by (apply dict_mem_In; rewrite Hd; apply dict_set_mem).
  assert (Hval : forall v, In (Fn id, v) (Dict.items d) -> v = (interval, 0))
    by (intros v Hv; rewrite Hd in Hv; apply (dict_set_items_same _ _ _ _ Hv)).
  assert (Hev : forall i last,
    In (EvPeriodic (Fn id) now i last)
       (rev (map (periodic_event now) (filter (due now) (Dict.items d)))) ->
    i = interval /\ last = 0 /\ interval <= now).
  { intros i last Hin. apply in_rev, in_map_iff in Hin.
    destruct Hin as ([g [i' l']] & Heq & Hin). simpl in Heq.
    inversion Heq; subst. apply filter_In in Hin. destruct Hin as (Hin & Hdue).
    apply Hval in Hin. inversion Hin; subst. simpl in Hdue.
    apply Z.leb_le in Hdue. repeat split; lia. }
  split; [split|].
  - intros Hin. apply Hev in Hin. tauto.
  - intros Hle. apply in_rev. rewrite rev_involutive.
    destruct Hmem as (v & Hv). pose proof (Hval v Hv) as Hvv. subst v.
    apply (in_map (periodic_event now) _ (Fn id, (interval, 0))).
    apply filter_In. split; [exact Hv|]. simpl. apply Z.leb_le. lia.
  - intros i last Hin. apply Hev in Hin. tauto.
Qed.

Lemma first_call_counts_from_clock_zero_witness :
  (forall i t w0,
      exists v w1,
        body idle_app i t w0 = HOk w1 v /\ INTERVALS w1 = INTERVALS w0) /\
  distinct_keys (INTERVALS late_tick) /\
  (forall g, In g (Dict.keys (INTERVALS late_tick)) ->
             exists i, g = Fn i) /\
  (S (Dict.len (INTERVALS late_tick)) < 3)%nat /\
  exists w' l,
    intervals_loop idle_app 3
      (Dict.iter_new (INTERVALS (every 500 (Fn 0) late_tick))) 901
      (every 500 (Fn 0) late_tick) []
    = Ok VNone w' (l ++ []) /\
    (In (EvPeriodic (Fn 0) 901 500 0) l <-> 500 <= 901) /\
    (forall i last,
        In (EvPeriodic (Fn 0) 901 i last) l -> i = 500 /\ last = 0).
Proof.
  assert (H1 : forall i t w0,
    exists v w1,
      body idle_app i t w0 = HOk w1 v /\ INTERVALS w1 = INTERVALS w0).
  { intros i t w0. exists VNone, w0. split; reflexivity. }
  assert (H2 : distinct_keys (INTERVALS late_tick)).
  { unfold distinct_keys. simpl. constructor; [intros []|constructor]. }
  assert (H3 : forall g, In g (Dict.keys (INTERVALS late_tick)) ->
                         exists i, g = Fn i).
  { intros g Hg. simpl in Hg. destruct Hg as [Hg|[]]. subst. eauto. }
  assert (H4 : (S (Dict.len (INTERVALS late_tick)) < 3)%nat)
    by (vm_compute; lia).
  split; [exact H1|]. split; [exact H2|]. split; [exact H3|].
  split; [exact H4|].
  exact (first_call_counts_from_clock_zero idle_app 901 500 0 3
           late_tick [] H1 H2 H3 H4).
Defined.

(** ** The detector is updated before the handlers run *)

Lemma store_nth_error {A : Type} (i : nat) (x y : A) (l : list A) :
  nth_error l i = Some y -> nth_error (store i x l) i = Some x.
Proof.
  revert i. induction l as [|z l IH]; intros [|i]; simpl;
    try discriminate; auto.
Qed.

Lemma dispatch_leaves_gamepads (E : Env) (f : nat) :
  (forall id t w0, leaves_gamepads (body E id t w0) w0) ->
  forall fuel i now fd fu w log,
    handlers_are_functions w ->
    heap (final_world (dispatch (call E f) fuel i now fd fu w log)) = heap w.
Proof.
  intros Hbody fuel.
  induction fuel as [|fuel IH]; intros i now fd fu w log Hfn; simpl;
    [reflexivity|].
  destruct (nth_error (PRESSES w) i) as [[[fn chord] action]|] eqn:Hn;
    [|reflexivity].
  destruct (binding_fires chord action fd fu); [|simpl; apply IH, Hfn].
  destruct (Hfn fn chord action (nth_error_In _ _ Hn)) as (id & Hid).
  subst fn. rewrite call_Fn.
  destruct (Hbody id now w) as (Hh & Hp).
  destruct (body E id now w) as [w1 v|e w1]; simpl in *; [|exact Hh].
  destruct (is_PROPOGATE v); [|exact Hh].
  rewrite IH; [exact Hh|].
  intros g c a Hin. apply (Hfn g c a). rewrite <- Hp. exact Hin.
Qed.

(** [Gamepad.__call__] updates [self.down] and [self.pressed] before it
    runs the handlers, and nothing is rolled back: however the call ends, by
    returning or by the exception of a handler, the attributes of the
    instance are the ones the edge detector computed from the sample.  A
    press whose handler raised is therefore not reported again by the next
    poll.  This holds when the handlers are functions of the application
    that leave the instances and the bindings alone. *)
Theorem poll_commits_before_dispatch :
  forall (E : Env) (f fuel addr : nat) (now : time) (w : World)
         (log : list event) (gp : Gamepad),
    (forall id t w0, leaves_gamepads (body E id t w0) w0) ->
    handlers_are_functions w ->
    nth_error (heap w) addr = Some gp ->
    exists gp' ev,
      edge_detect (read_pins E w) gp = Some (gp', ev) /\
      nth_error
        (heap (final_world (Gamepad_call E (call E f) fuel addr now w log)))
        addr
      = Some gp'.
Proof.
  intros E f fuel addr now w log gp Hbody Hfn Hgp.
  destruct (edge_detect_cases (read_pins E w) gp) as (held & ev & He & _).
  exists {| down := read_pins E w; pressed := held |}, ev.
  split; [exact He|]. unfold Gamepad_call. rewrite Hgp, He.
  destruct ev as [[fd fu]|].
  - rewrite (dispatch_leaves_gamepads E f Hbody); [|exact Hfn].
    simpl. apply (store_nth_error _ _ gp), Hgp.
  - simpl. apply (store_nth_error _ _ gp), Hgp.
Qed.

Lemma poll_commits_before_dispatch_witness :
  (forall id t w0, leaves_gamepads (body held_faulting_app id t w0) w0) /\
  handlers_are_functions sampled_once /\
  nth_error (heap sampled_once) 0 = Some {| down := [1%nat]; pressed := [] |} /\
  (exists w',
      Gamepad_call held_faulting_app (call held_faulting_app 2) 3 0 7
        sampled_once []
      = Raise (AppError 1) w' [EvButton (Fn 2) 7] /\
      nth_error (heap w') 0 = Some {| down := [1%nat]; pressed := [1%nat] |}) /\
  exists gp' ev,
    edge_detect (read_pins held_faulting_app sampled_once)
      {| down := [1%nat]; pressed := [] |} = Some (gp', ev) /\
    nth_error
      (heap (final_world
               (Gamepad_call held_faulting_app (call held_faulting_app 2) 3 0 7
                  sampled_once [])))
      0
    = Some gp'.
Proof.
  assert (H1 : forall id t w0,
    leaves_gamepads (body held_faulting_app id t w0) w0)
    by (intros id t w0; split; reflexivity).
  assert (H2 : handlers_are_functions sampled_once).
  { intros fn chord action H. simpl in H.
    destruct H as [H|[H|[]]]; inversion H; subst; eauto. }
  assert (H3 : nth_error (heap sampled_once) 0
               = Some {| down := [1%nat]; pressed := [] |}) by reflexivity.
  split; [exact H1|]. split; [exact H2|]. split; [exact H3|].
  split; [eexists; split; reflexivity|].
  exact (poll_commits_before_dispatch held_faulting_app 2 3 0 7 sampled_once []
           {| down := [1%nat]; pressed := [] |} H1 H2 H3).
Defined.
